(** * KairuCommunityHub: a shallow embedding of the community feed view

    The program is one React module, [KairuCommunityHub.jsx].  It keeps no
    store of its own: posts live in a Firestore collection, and the module
    consists of pure helpers ([formatTimestamp], [formatTextContent]), one
    live-query hook ([usePosts]) and three event handlers ([handleLike],
    [handleAddComment], [handleSubmit]) that issue writes to the collection.

    The embedding passes the collection around explicitly as a finite map
    from document ids to post documents.  The few backend calls the handlers
    make ([addDoc], [updateDoc], [arrayUnion], the ordered query and its
    listener) are modelled by their documented behaviour; every such
    definition says so.  Everything else follows the source text.

    One of those behaviours decides what [handleAddComment] does: the
    Firestore client does not accept [serverTimestamp()] inside
    [arrayUnion()], so the update the handler issues is refused before it
    is sent, and the handler always ends in its [catch] branch. *)

From Stdlib Require Import ZArith String Ascii List Bool Lia.
From Stdlib Require Import Sorting.Sorted Sorting.Permutation.
From Stdlib Require Import Structures.OrderedTypeEx.
From stdpp Require Import base option list sorting strings pretty gmap.
From stdpp Require Import stringmap.

Local Open Scope string_scope.
Local Open Scope list_scope.
Local Open Scope Z_scope.

(** ** Data model *)

(** A Firestore [Timestamp]: whole seconds since the epoch plus nanoseconds. *)
Record Timestamp := mkTimestamp {
  seconds : Z;
  nanoseconds : Z
}.

(** An element of a post's [comments] array as the collection holds it and
    as the view reads it: [{ userId, text, timestamp }], the timestamp a time
    the server has set. *)
Record Comment := mkComment {
  c_userId : string;
  c_text : string;
  c_timestamp : Timestamp
}.

(** The fields of a post document, as [handleSubmit] writes them.  The view
    reads [likes] and [comments] as [post.likes || []] and
    [post.comments || []], so both may be missing. *)
Record PostData := mkPostData {
  p_userId : string;
  p_content : string;
  p_timestamp : Timestamp;
  p_likes : option (list string);
  p_comments : option (list Comment)
}.

(** What [usePosts] hands to the view: [{ id: doc.id, ...doc.data() }]. *)
Record Post := mkPost {
  post_id : string;
  post_doc : PostData
}.

#[global] Instance Timestamp_eq_dec : EqDecision Timestamp.
Proof. solve_decision. Defined.
#[global] Instance Comment_eq_dec : EqDecision Comment.
Proof. solve_decision. Defined.
#[global] Instance PostData_eq_dec : EqDecision PostData.
Proof. solve_decision. Defined.
#[global] Instance Post_eq_dec : EqDecision Post.
Proof. solve_decision. Defined.

(** The posts collection: document id to document. *)
Abbreviation Store := (gmap string PostData).

(** The value a call evaluates to.  The handlers are [async] functions with
    no [return <value>] statement and with a [catch] around every backend
    call, so the promise they return always resolves to [undefined]. *)
Inductive JsValue :=
| JsUndefined
| JsBool (b : bool)
| JsString (s : string)
| JsError (code : string).

#[global] Instance JsValue_eq_dec : EqDecision JsValue.
Proof. solve_decision. Defined.

(** The database handle held in React state ([null] until initialised).
    [FirestoreHandle] is a handle to a backend that accepts the user's
    writes; [FirestoreDenied] is a handle to a backend that denies them
    (its security rules reject every write of this user). *)
Inductive Firestore := FirestoreHandle | FirestoreDenied.

(** JavaScript truthiness of a string: the empty string is falsy. *)
Definition truthy (s : string) : bool :=
  match s with
  | EmptyString => false
  | String _ _ => true
  end.

(** ** The backend calls, by their documented behaviour *)

(** The failures of a write: [not-found], [invalid-argument] and
    [permission-denied]. *)
Inductive FirestoreError :=
| NotFoundError
| InvalidArgumentError
| PermissionDeniedError.

(** A write made through the handle [db]: a backend that denies the user's
    writes rejects it, whatever the write would have done. *)
Definition through {A : Type} (db : Firestore) (result : FirestoreError + A)
  : FirestoreError + A :=
  match db with
  | FirestoreHandle => result
  | FirestoreDenied => inl PermissionDeniedError
  end.

(** The payloads of an [updateDoc] that the backend applies:
    [{ likes: newLikes }], as [handleLike] passes it, and
    [{ comments: arrayUnion(newComment) }] for a comment made of plain
    data. *)
Inductive FieldUpdate :=
| UpdLikes (newLikes : list string)
| UpdCommentsUnion (newComment : Comment).

(** [arrayUnion(x)] on an array field: appends [x] unless an equal element
    is already present. *)
Definition arrayUnion (x : Comment) (l : list Comment) : list Comment :=
  if bool_decide (x ∈ l) then l else l ++ [x].

(** Applying an update payload touches the named field and no other. *)
Definition applyUpdate (u : FieldUpdate) (d : PostData) : PostData :=
  match u with
  | UpdLikes newLikes =>
      mkPostData (p_userId d) (p_content d) (p_timestamp d)
                 (Some newLikes) (p_comments d)
  | UpdCommentsUnion c =>
      mkPostData (p_userId d) (p_content d) (p_timestamp d)
                 (p_likes d) (Some (arrayUnion c (default [] (p_comments d))))
  end.

(** [updateDoc(ref, payload)]: fails with [not-found] when the document does
    not exist, otherwise rewrites it in place. *)
Definition updateDoc (docId : string) (u : FieldUpdate) (st : Store)
  : FirestoreError + Store :=
  match st !! docId with
  | Some d => inr (<[docId := applyUpdate u d]> st)
  | None => inl NotFoundError
  end.

(** The object [handleAddComment] builds:
    [{ userId, text: commentText.trim(), timestamp: serverTimestamp() }].
    Its timestamp is the [serverTimestamp()] sentinel, not a time. *)
Record NewComment := mkNewComment {
  nc_userId : string;
  nc_text : string
}.

(** [updateDoc(ref, { comments: arrayUnion(newComment) })] for such an
    object.  The client checks a payload before it sends anything, and it
    does not accept [serverTimestamp()] inside [arrayUnion()]: the call
    fails with [invalid-argument] whatever the collection holds, and nothing
    is written. *)
Definition updateDoc_arrayUnion (docId : string) (newComment : NewComment)
    (st : Store) : FirestoreError + Store :=
  inl InvalidArgumentError.

(** The id [addDoc] gives a new document.  The client draws it at random,
    [autoId] being the draw; a draw that is already the id of a document,
    which the size of the id space rules out in practice, is modelled as
    drawn again. *)
Definition newDocId (autoId : string) (st : Store) : string :=
  fresh_string autoId st.

(** [addDoc(col, data)]: stores [data] under a newly generated id and
    resolves to the reference of the new document. *)
Definition addDoc (autoId : string) (d : PostData) (st : Store)
  : FirestoreError + (string * Store) :=
  inr (newDocId autoId st, <[newDocId autoId st := d]> st).

(** ** Handler results *)

(** What running a handler leaves behind: the collection, the component's
    own state, the lines written with [console.error], and the value the
    caller gets back. *)
Record Outcome (UI : Type) := mkOutcome {
  o_store : Store;
  o_ui : UI;
  o_console : list string;
  o_returned : JsValue
}.
Arguments mkOutcome {UI} _ _ _ _.
Arguments o_store {UI} _.
Arguments o_ui {UI} _.
Arguments o_console {UI} _.
Arguments o_returned {UI} _.

(** ** PostItem *)

Record PostItemState := mkPostItemState {
  isExpanded : bool;
  commentText : string
}.

(** [currentLikes.includes(userId)] *)
Definition includes (x : string) (l : list string) : bool :=
  bool_decide (x ∈ l).

(** The like list [handleLike] computes from the post it was rendered with. *)
Definition newLikes (userId : string) (post : Post) : list string :=
  let currentLikes := default [] (p_likes (post_doc post)) in
  if includes userId currentLikes
  then filter (λ id, id ≠ userId) currentLikes
  else currentLikes ++ [userId].

Definition handleLike (db : option Firestore) (userId : option string)
    (post : Post) (ui : PostItemState) (console : list string) (st : Store)
  : Outcome PostItemState :=
  match db, userId with
  | Some handle, Some uid =>
      if truthy uid then
        match through handle
                (updateDoc (post_id post) (UpdLikes (newLikes uid post)) st)
        with
        | inr st' => mkOutcome st' ui console JsUndefined
        | inl _ =>
            mkOutcome st ui (console ++ ["Error updating likes:"]) JsUndefined
        end
      else mkOutcome st ui console JsUndefined
  | _, _ => mkOutcome st ui console JsUndefined
  end.

(** [const userLiked = post.likes?.includes(userId)] *)
Definition userLiked (userId : string) (post : Post) : bool :=
  match p_likes (post_doc post) with
  | Some l => includes userId l
  | None => false
  end.

(** The post a [PostItem] is rendered with once the listener has delivered
    the current state of the collection. *)
Definition renderedPost (st : Store) (postId : string) : option Post :=
  mkPost postId <$> st !! postId.

(** One click on the like button of the post [postId], rendered from the
    current collection. *)
Definition clickLike (userId : string) (postId : string) (st : Store) : Store :=
  match renderedPost st postId with
  | Some post =>
      o_store (handleLike (Some FirestoreHandle) (Some userId) post
                 (mkPostItemState false "") [] st)
  | None => st
  end.

(** [String.prototype.trim] on text whose characters are the code units
    below 256: white space and line terminators there are U+0009 to U+000D,
    U+0020 and U+00A0. *)
Definition isWhiteSpace (c : ascii) : bool :=
  let n := nat_of_ascii c in
  ((9 <=? n)%nat && (n <=? 13)%nat) || (n =? 32)%nat || (n =? 160)%nat.

Fixpoint trimStart (s : string) : string :=
  match s with
  | EmptyString => EmptyString
  | String c s' => if isWhiteSpace c then trimStart s' else s
  end.

Definition trimEnd (s : string) : string :=
  String.rev (trimStart (String.rev s)).

Definition trim (s : string) : string := trimEnd (trimStart s).

(** [handleAddComment].  [now] is the time of the call; the timestamp of
    the comment is left to the server by [serverTimestamp()], and since the
    update is refused no time is ever set from it. *)
Definition handleAddComment (db : option Firestore) (userId : option string)
    (post : Post) (now : Timestamp)
    (ui : PostItemState) (console : list string) (st : Store)
  : Outcome PostItemState :=
  match db, userId with
  | Some _, Some uid =>
      if truthy uid && truthy (trim (commentText ui)) then
        let newComment := mkNewComment uid (trim (commentText ui)) in
        match updateDoc_arrayUnion (post_id post) newComment st with
        | inr st' => mkOutcome st' (mkPostItemState true "") console JsUndefined
        | inl _ =>
            mkOutcome st ui (console ++ ["Error adding comment:"]) JsUndefined
        end
      else mkOutcome st ui console JsUndefined
  | _, _ => mkOutcome st ui console JsUndefined
  end.

(** [Array.prototype.sort] with a comparator.  The language requires the
    sort to be stable, and for a consistent comparator every stable sort
    returns the same array, so it is modelled by insertion sort: an element
    goes in front of the first later element it does not compare greater
    than. *)
Section Array_sort.
Context {A : Type} (compareFn : A → A → Z).

Fixpoint sort_insert (x : A) (l : list A) : list A :=
  match l with
  | [] => [x]
  | y :: l' =>
      if compareFn x y <=? 0 then x :: y :: l' else y :: sort_insert x l'
  end.

Fixpoint Array_sort (l : list A) : list A :=
  match l with
  | [] => []
  | x :: l' => sort_insert x (Array_sort l')
  end.
End Array_sort.

(** [(a, b) => a.timestamp?.seconds - b.timestamp?.seconds] *)
Definition bySeconds (a b : Comment) : Z :=
  seconds (c_timestamp a) - seconds (c_timestamp b).

(** [(post.comments || []).slice().sort(...)]: a sorted copy. *)
Definition displayedComments (post : Post) : list Comment :=
  Array_sort bySeconds (default [] (p_comments (post_doc post))).

(** [l.slice(-2)]: the last two elements. *)
Definition slice_last2 {A} (l : list A) : list A :=
  drop (length l - 2)%nat l.

Definition visibleComments (expanded : bool) (post : Post) : list Comment :=
  if expanded then displayedComments post
  else slice_last2 (displayedComments post).

(** ** NewPost *)

Record NewPostState := mkNewPostState {
  content : string;
  isPosting : bool
}.

(** [handleSubmit].  [newId] is the id the client draws for the new
    document and [now] the commit time that replaces [serverTimestamp()],
    here a field of the document itself.  The reference [addDoc] resolves to
    is not bound to anything.  When the write fails the text stays in the
    form; in either case [finally] resets [isPosting]. *)
Definition handleSubmit (db : option Firestore) (userId : option string)
    (newId : string) (now : Timestamp)
    (ui : NewPostState) (console : list string) (st : Store)
  : Outcome NewPostState :=
  match db, userId with
  | Some handle, Some uid =>
      if truthy (trim (content ui)) && truthy uid then
        match through handle
                (addDoc newId
                   (mkPostData uid (trim (content ui)) now (Some []) (Some []))
                   st)
        with
        | inr (_, st') =>
            mkOutcome st' (mkNewPostState "" false) console JsUndefined
        | inl _ =>
            mkOutcome st (mkNewPostState (content ui) false)
              (console ++ ["Error creating post:"]) JsUndefined
        end
      else mkOutcome st ui console JsUndefined
  | _, _ => mkOutcome st ui console JsUndefined
  end.

(** ** usePosts *)

(** A document of the query result: [doc.id] and [doc.data()]. *)
Abbreviation Doc := (string * PostData)%type.

Definition compareTimestamp (a b : Timestamp) : comparison :=
  match seconds a ?= seconds b with
  | Eq => nanoseconds a ?= nanoseconds b
  | c => c
  end.

(** [a] is an earlier time than [b]. *)
Definition earlier (a b : Timestamp) : Prop :=
  seconds a < seconds b
  ∨ (seconds a = seconds b ∧ nanoseconds a < nanoseconds b).

(** Modelled from the spec: the order of the query
    [query(postsColRef, orderBy('timestamp', 'desc'))].  The query is
    evaluated by the backend, whose code is not part of the repository; the
    spec gives its order as creation timestamp descending, ties broken by
    id.  [queryCompare x y] is [Lt] when [x] is listed before [y]; ties go
    by id in the direction of the ordering clause. *)
Definition queryCompare (x y : Doc) : comparison :=
  match compareTimestamp (p_timestamp y.2) (p_timestamp x.2) with
  | Eq => String.compare y.1 x.1
  | c => c
  end.

Definition queryBefore (x y : Doc) : Prop := queryCompare x y ≠ Gt.

#[global] Instance queryBefore_dec x y : Decision (queryBefore x y).
Proof. unfold queryBefore. apply _. Defined.

(** Modelled from the spec: the documents a listener of the query is handed,
    for a collection held in any order. *)
Definition queryDocs (docs : list Doc) : list Doc :=
  merge_sort queryBefore docs.

Definition postsQuery (st : Store) : list Doc :=
  queryDocs (map_to_list st).

Record PostsState := mkPostsState {
  posts : list Post;
  allUserIds : list string
}.

(** [uniqueIds.add(x)] followed, at the end, by [Array.from(uniqueIds)]: a
    [Set] lists its elements in the order they were first added. *)
Definition setAdd (x : string) (ids : list string) : list string :=
  if bool_decide (x ∈ ids) then ids else ids ++ [x].

Definition collectPost (ids : list string) (post : Post) : list string :=
  let ids1 :=
    if truthy (p_userId (post_doc post))
    then setAdd (p_userId (post_doc post)) ids else ids in
  fold_left
    (λ acc comment,
       if truthy (c_userId comment) then setAdd (c_userId comment) acc
       else acc)
    (default [] (p_comments (post_doc post))) ids1.

(** The listener callback of [usePosts]: the state it sets from one event. *)
Definition onPostsSnapshot (docs : list Doc) : PostsState :=
  let fetchedPosts := map (λ doc : Doc, mkPost doc.1 doc.2) docs in
  mkPostsState fetchedPosts (fold_left collectPost fetchedPosts []).

(** The feed the view shows for a collection: what the callback stores when
    handed the query result. *)
Definition snapshot (st : Store) : list Post :=
  posts (onPostsSnapshot (postsQuery st)).

(** ** The listener registry *)

(** A write reaching the collection: an [addDoc], as [handleSubmit] issues
    it, or an [updateDoc] with a payload the backend applies. *)
Inductive Write :=
| WAddDoc (autoId : string) (d : PostData)
| WUpdateDoc (docId : string) (u : FieldUpdate).

(** Modelled from the spec: the change events of the feed store, which the
    repository does not contain.  A new observer is handed the whole feed
    as one synthetic initial event; creating a post emits [PostAdded], and
    a like or a comment emits [PostUpdated], each with the post as it then
    is. *)
Inductive ChangeEvent :=
| InitialSnapshot (feed : list Post)
| PostAdded (post : Post)
| PostUpdated (post : Post).

#[global] Instance ChangeEvent_eq_dec : EqDecision ChangeEvent.
Proof. solve_decision. Defined.

(** The collection after a write, with the change event the write stands
    for; [None] when the write is refused. *)
Definition applyWrite (w : Write) (st : Store) : option (Store * ChangeEvent) :=
  match w with
  | WAddDoc autoId d =>
      match addDoc autoId d st with
      | inr (newId, st') => Some (st', PostAdded (mkPost newId d))
      | inl _ => None
      end
  | WUpdateDoc docId u =>
      match updateDoc docId u st with
      | inr st' =>
          (λ d', (st', PostUpdated (mkPost docId d'))) <$> st' !! docId
      | inl _ => None
      end
  end.

(** Modelled from the spec: the subscription hub, which the repository
    leaves to the backend client.  An observer is recorded with the events
    delivered to it so far, oldest first. *)
Record Hub := mkHub {
  hub_store : Store;
  hub_listeners : gmap nat (list ChangeEvent);
  hub_next : nat
}.

(** Modelled from the spec: [subscribe] registers an observer and delivers
    the current [snapshot()] to it at once, as a synthetic initial event;
    the handle identifies the observer. *)
Definition subscribe (h : Hub) : nat * Hub :=
  (hub_next h,
   mkHub (hub_store h)
         (<[hub_next h := [InitialSnapshot (snapshot (hub_store h))]]>
            (hub_listeners h))
         (S (hub_next h))).

(** Modelled from the spec: [unsubscribe] removes the observer and does
    nothing when it is already gone. *)
Definition unsubscribe (handle : nat) (h : Hub) : Hub :=
  mkHub (hub_store h) (delete handle (hub_listeners h)) (hub_next h).

(** Modelled from the spec: a mutation, that is a write that is applied and
    changes the collection, delivers its change event to every observer
    registered at that moment.  A write that is refused, or that leaves the
    collection as it is (a write delivered once more), is no mutation and
    delivers nothing. *)
Definition write (w : Write) (h : Hub) : Hub :=
  match applyWrite w (hub_store h) with
  | Some (st', e) =>
      if decide (st' = hub_store h) then h
      else
        mkHub st'
              ((λ events : list ChangeEvent, events ++ [e])
                 <$> hub_listeners h)
              (hub_next h)
  | None => h
  end.

Definition writes (ws : list Write) (h : Hub) : Hub :=
  fold_left (λ h' w, write w h') ws h.

(** The change events of the mutations among the writes [ws], made one
    after the other from the collection [st]. *)
Fixpoint laterEvents (ws : list Write) (st : Store) : list ChangeEvent :=
  match ws with
  | [] => []
  | w :: ws' =>
      match applyWrite w st with
      | Some (st', e) =>
          if decide (st' = st) then laterEvents ws' st
          else e :: laterEvents ws' st'
      | None => laterEvents ws' st
      end
  end.

(** Modelled from the spec: the picture of the collection an observer
    keeps.  The initial event sets it to the posts of the snapshot, and
    every later event puts the post it carries in its place. *)
Definition applyEvent (view : Store) (e : ChangeEvent) : Store :=
  match e with
  | InitialSnapshot feed =>
      list_to_map ((λ post, (post_id post, post_doc post)) <$> feed)
  | PostAdded post | PostUpdated post =>
      <[post_id post := post_doc post]> view
  end.

Definition replay (events : list ChangeEvent) : Store :=
  fold_left applyEvent events ∅.

(** An event that is not the initial one. *)
Definition isChange (e : ChangeEvent) : Prop :=
  match e with
  | InitialSnapshot _ => False
  | PostAdded _ | PostUpdated _ => True
  end.

(** ** formatTextContent *)

(** The character classes of [/(\@([a-zA-Z0-9]+))|([^\@]+)/g]. *)
Definition isAt (c : ascii) : bool := (nat_of_ascii c =? 64)%nat.

Definition isAlnum (c : ascii) : bool :=
  let n := nat_of_ascii c in
  ((48 <=? n)%nat && (n <=? 57)%nat)
  || ((65 <=? n)%nat && (n <=? 90)%nat)
  || ((97 <=? n)%nat && (n <=? 122)%nat).

Fixpoint takeWhile (f : ascii → bool) (s : string) : string :=
  match s with
  | EmptyString => EmptyString
  | String c s' => if f c then String c (takeWhile f s') else EmptyString
  end.

Fixpoint dropWhile (f : ascii → bool) (s : string) : string :=
  match s with
  | EmptyString => EmptyString
  | String c s' => if f c then dropWhile f s' else s
  end.

(** A successful [regex.exec]: [match.index], [match[0]], and the groups
    [match[2]] and [match[3]] ([None] for a group that did not take part). *)
Record RegExpMatch := mkMatch {
  m_index : nat;
  m_0 : string;
  m_2 : option string;
  m_3 : option string
}.

(** One [regex.exec(text)] with the text from [lastIndex] on in [s] and
    [lastIndex] in [idx]: the leftmost match, together with what follows it
    and the new [lastIndex].  An [@] with no letter or digit after it starts
    no match, and the search moves on by one character. *)
Fixpoint exec (s : string) (idx : nat) : option (RegExpMatch * string * nat) :=
  match s with
  | EmptyString => None
  | String c s' =>
      if isAt c then
        match takeWhile isAlnum s' with
        | EmptyString => exec s' (S idx)
        | name =>
            Some (mkMatch idx (String c name) (Some name) None,
                  dropWhile isAlnum s',
                  (idx + 1 + String.length name)%nat)
        end
      else
        let seg := String c (takeWhile (λ x, negb (isAt x)) s') in
        Some (mkMatch idx seg None (Some seg),
              dropWhile (λ x, negb (isAt x)) s',
              (idx + String.length seg)%nat)
  end.

(** A [<span key=... className=...>children</span>] element. *)
Record Span := mkSpan {
  key : nat;
  className : option string;
  children : string
}.

(** [u.startsWith(mentionedId)] *)
Definition startsWith (u mentionedId : string) : bool :=
  String.prefix mentionedId u.

(** [allUsers.some(u => u.startsWith(mentionedId))] *)
Definition isKnownUser (allUsers : list string) (mentionedId : string) : bool :=
  existsb (λ u, startsWith u mentionedId) allUsers.

(** The body of the [while] loop: the element pushed for one match. *)
Definition pushFor (allUsers : list string) (m : RegExpMatch) : list Span :=
  match m_2 m with
  | Some mentionedId =>
      if truthy mentionedId then
        let style :=
          if isKnownUser allUsers mentionedId
          then "text-blue-500 font-semibold" else "text-gray-400" in
        [mkSpan (m_index m) (Some style) (m_0 m)]
      else
        match m_3 m with
        | Some seg => if truthy seg then [mkSpan (m_index m) None (m_0 m)] else []
        | None => []
        end
  | None =>
      match m_3 m with
      | Some seg => if truthy seg then [mkSpan (m_index m) None (m_0 m)] else []
      | None => []
      end
  end.

(** The [while ((match = regex.exec(text)) !== null)] loop.  Every match is
    at least one character long, so the loop runs at most once per
    character; [fuel] bounds the number of iterations. *)
Fixpoint execLoop (fuel : nat) (allUsers : list string)
    (s : string) (idx : nat) (parts : list Span) : list Span :=
  match fuel with
  | O => parts
  | S fuel' =>
      match exec s idx with
      | None => parts
      | Some (m, rest, idx') =>
          execLoop fuel' allUsers rest idx' (parts ++ pushFor allUsers m)
      end
  end.

(** [formatTextContent(text, allUsers)]; [None] is the [null] it returns for
    a missing or empty text. *)
Definition formatTextContent (text : option string) (allUsers : list string)
  : option (list Span) :=
  match text with
  | None => None
  | Some t =>
      if truthy t
      then Some (execLoop (String.length t) allUsers t 0 [])
      else None
  end.

(** ** formatTimestamp *)

(** The timestamps the view passes in: a missing value, a raw number of
    milliseconds, [NaN], a string, or a Firestore [Timestamp] (the one kind
    of object with a [toDate] method that reaches the view).  Numbers are
    whole milliseconds. *)
Inductive TimestampArg :=
| ArgNull
| ArgUndefined
| ArgNumber (ms : Z)
| ArgNaN
| ArgString (s : string)
| ArgTimestamp (t : Timestamp).

(** [!timestamp] *)
Definition falsy (timestamp : TimestampArg) : bool :=
  match timestamp with
  | ArgNull | ArgUndefined | ArgNaN => true
  | ArgNumber ms => ms =? 0
  | ArgString s => negb (truthy s)
  | ArgTimestamp _ => false
  end.

(** A [Date] holds a whole number of milliseconds of magnitude at most
    8.64e15, or is invalid ([None]). *)
Definition timeClip (ms : Z) : option Z :=
  if Z.abs ms <=? 8640000000000000 then Some ms else None.

(** [Timestamp.toDate()]: [new Date(seconds * 1000 + nanoseconds / 1e6)],
    the fraction of a millisecond cut off towards zero. *)
Definition toDate (t : Timestamp) : option Z :=
  timeClip (Z.quot (seconds t * 1000000000 + nanoseconds t) 1000000).

Section FormatTimestamp.
(** [Date.parse] and [Date.prototype.toLocaleDateString('en-US', ...)] are
    left to the engine by the language; the function is given for any. *)
Context (Date_parse : string → option Z).
Context (toLocaleDateString : Z → string).

(** The [date] the function computes for a truthy argument. *)
Definition dateOf (timestamp : TimestampArg) : option Z :=
  match timestamp with
  | ArgTimestamp t => toDate t
  | ArgNumber ms => timeClip ms
  | ArgString s => Date_parse s
  | ArgNull => timeClip 0
  | ArgUndefined | ArgNaN => None
  end.

(** [`${n} ${unit}${n !== 1 ? 's' : ''} ago`] *)
Definition ago (n : Z) (unit : string) : string :=
  String.append (pretty n)
    (String.append " "
       (String.append unit
          (String.append (if (n =? 1)%Z then "" else "s") " ago"))).

(** [formatTimestamp(timestamp)] at the time [now], in milliseconds. *)
Definition formatTimestamp (now : Z) (timestamp : TimestampArg) : string :=
  if falsy timestamp then "Just now"
  else
    match dateOf timestamp with
    | None => "Unknown time"
    | Some date =>
        let diffInMinutes := (now - date) / (1000 * 60) in
        if diffInMinutes <? 1 then "Just now"
        else if diffInMinutes <? 60 then ago diffInMinutes "minute"
        else if diffInMinutes <? 1440 then ago (diffInMinutes / 60) "hour"
        else toLocaleDateString date
    end.
End FormatTimestamp.

(** The collection after the writes [ws]; a refused write changes nothing. *)
Definition storeAfter (ws : list Write) (st : Store) : Store :=
  fold_left (λ s w, default s (fst <$> applyWrite w s)) ws st.

(** What [exec] returns for a match: a mention, [@] and then the name of
    group 2, or a text segment that does not begin with [@]. *)
Definition isMatch (m : RegExpMatch) : Prop :=
  (∃ name, m_2 m = Some name ∧ truthy name = true
           ∧ m_0 m = String "@"%char name ∧ m_3 m = None)
  ∨ (∃ c seg, m_2 m = None ∧ m_3 m = Some (String c seg)
              ∧ m_0 m = String c seg ∧ isAt c = false).

(** ** Reading the formatted text back *)

(** The text of a list of elements, one after the other. *)
Definition textOf (parts : list Span) : string :=
  foldr (λ part rest, String.append (children part) rest) "" parts.

Definition startsAlnum (s : string) : bool :=
  match s with
  | EmptyString => false
  | String a _ => isAlnum a
  end.

(** A text without the [@]s that no letter or digit follows. *)
Fixpoint dropStrayAts (s : string) : string :=
  match s with
  | EmptyString => EmptyString
  | String c s' =>
      if isAt c && negb (startsAlnum s') then dropStrayAts s'
      else String c (dropStrayAts s')
  end.

Fixpoint allChars (f : ascii → bool) (s : string) : bool :=
  match s with
  | EmptyString => true
  | String c s' => f c && allChars f s'
  end.

(** The two kinds of match in full: a mention is [@] and a non-empty name
    of letters and digits, a text segment is non-empty and free of [@]. *)
Definition isToken (m : RegExpMatch) : Prop :=
  (∃ name, m_2 m = Some name ∧ m_3 m = None
           ∧ m_0 m = String "@"%char name
           ∧ truthy name = true ∧ allChars isAlnum name = true)
  ∨ (∃ seg, m_2 m = None ∧ m_3 m = Some seg ∧ m_0 m = seg
            ∧ truthy seg = true
            ∧ allChars (λ x, negb (isAt x)) seg = true).

(** ** Sign-in *)

(** No write can be issued: the database handle or the user id is missing
    ([null]), or the user id is the empty string. *)
Definition signedOut (db : option Firestore) (userId : option string) : Prop :=
  db = None ∨ userId = None ∨ userId = Some "".

(** ** What PostItem shows *)

(** [!isExpanded && displayedComments.length > visibleComments.length]: the
    condition of the "View all" button. *)
Definition showViewAll (expanded : bool) (post : Post) : bool :=
  negb expanded
  && (length (visibleComments expanded post)
        <? length (displayedComments post))%nat.

(** The user id [u] is the author of the post or of one of its comments. *)
Definition namedIn (u : string) (post : Post) : Prop :=
  p_userId (post_doc post) = u
  ∨ ∃ comment, comment ∈ default [] (p_comments (post_doc post))
               ∧ c_userId comment = u.

(** ** Sessions *)

(** What users do: submit the new-post form, click the like button of a
    post, or send the comment form of a post.  The post of the last two is
    rendered from the collection as it is at that moment. *)
Inductive Action :=
| Submit (userId : option string) (newId : string) (now : Timestamp)
    (body : string)
| Like (userId : option string) (postId : string)
| AddComment (userId : option string) (postId : string) (now : Timestamp)
    (body : string).

Definition act (a : Action) (st : Store) : Store :=
  match a with
  | Submit userId newId now body =>
      o_store (handleSubmit (Some FirestoreHandle) userId newId now
                 (mkNewPostState body false) [] st)
  | Like userId postId =>
      match renderedPost st postId with
      | Some post =>
          o_store (handleLike (Some FirestoreHandle) userId post
                     (mkPostItemState false "") [] st)
      | None => st
      end
  | AddComment userId postId now body =>
      match renderedPost st postId with
      | Some post =>
          o_store (handleAddComment (Some FirestoreHandle) userId post now
                     (mkPostItemState false body) [] st)
      | None => st
      end
  end.

Definition session (actions : list Action) (st : Store) : Store :=
  fold_left (λ s a, act a s) actions st.

(** A text as the forms store it: not empty, no white space at either
    end. *)
Definition trimmed (s : string) : Prop := truthy s = true ∧ trim s = s.

Definition wellFormedComment (c : Comment) : Prop :=
  truthy (c_userId c) = true ∧ trimmed (c_text c).

(** A post as the handlers leave it. *)
Definition wellFormedPost (d : PostData) : Prop :=
  truthy (p_userId d) = true
  ∧ trimmed (p_content d)
  ∧ (∃ likes, p_likes d = Some likes
              ∧ NoDup likes ∧ Forall (λ id, truthy id = true) likes)
  ∧ (∃ comments, p_comments d = Some comments
                 ∧ NoDup comments ∧ Forall wellFormedComment comments).

(** The first character of a text, if any, is not white space. *)
Definition startsClean (s : string) : bool :=
  match s with
  | EmptyString => true
  | String c _ => negb (isWhiteSpace c)
  end.

(** ** useFirebase and App *)

(** The part of the state of [useFirebase] that the sign-in listener sets. *)
Record AuthState := mkAuthState {
  auth_userId : option string;
  isAuthReady : bool
}.

(** [useState(null)] and [useState(false)]. *)
Definition initialAuthState : AuthState := mkAuthState None false.

(** The listener given to [onAuthStateChanged]; [user] is the [uid] of the
    user, [None] for [null].  [user?.uid || null] turns an empty [uid] into
    [null]. *)
Definition authStateChanged (user : option string) : AuthState :=
  mkAuthState
    (match user with
     | Some uid => if truthy uid then Some uid else None
     | None => None
     end)
    true.

(** What [App] renders, as far as it depends on the state: the loading
    screen; or the page with the explorer id, the mention example
    [@{userId.substring(0, 8)}...], the number of active users, the number
    of posts of the heading and the keys of the [PostItem]s; or the
    [TypeError] that [userId.substring] raises on [null]. *)
Inductive AppView :=
| Connecting
| Page (explorerId mentionExample : string) (userCount postCount : nat)
    (items : list string)
| RenderError.

Definition App (auth : AuthState) (userCount : nat) (feed : list Post)
  : AppView :=
  if negb (isAuthReady auth) then Connecting
  else
    match auth_userId auth with
    | None => RenderError
    | Some uid =>
        Page uid
          (String.append "@" (String.append (substring 0 8 uid) "..."))
          userCount (length feed) (post_id <$> feed)
    end.

(** ** Scenario data *)

(** The collection of the scenarios: one post [p1] by alice, no likes and no
    comments yet. *)
Definition heronPost : PostData :=
  mkPostData "alice" "Saw a heron" (mkTimestamp 1700000000 0) (Some []) (Some []).

Definition heronStore : Store := <["p1" := heronPost]> ∅.

(** The comment of the scenarios: carol's "hi @bob". *)
Definition carolComment : Comment :=
  mkComment "carol" "hi @bob" (mkTimestamp 1700000060 0).

(** [{ id: doc.id, ...doc.data() }] *)
Definition toPost (doc : Doc) : Post := mkPost doc.1 doc.2.

(** [p] stands before [q] in the feed: [p] was created later, or at the
    same time and under the greater id. *)
Definition listedBefore (p q : Post) : Prop :=
  earlier (p_timestamp (post_doc q)) (p_timestamp (post_doc p))
  ∨ (p_timestamp (post_doc p) = p_timestamp (post_doc q)
     ∧ String.compare (post_id q) (post_id p) = Lt).

(** The document an update of [docId] turns a document into. *)
Definition updated (docId : string) (u : FieldUpdate) (doc : Doc) : Doc :=
  if decide (doc.1 = docId) then (doc.1, applyUpdate u doc.2) else doc.

(** Three posts created at three different times. *)
Definition threePosts : list Doc :=
  [("a", mkPostData "alice" "first" (mkTimestamp 100 0) (Some []) (Some []));
   ("b", mkPostData "bob" "second" (mkTimestamp 200 0) (Some []) (Some []));
   ("c", mkPostData "carol" "third" (mkTimestamp 300 0) (Some []) (Some []))].


(** * Properties *)

(** ** Likes *)

Lemma includes_true (x : string) (l : list string) :
  includes x l = true ↔ x ∈ l.
Proof. unfold includes. apply bool_decide_eq_true. Qed.

Lemma includes_false (x : string) (l : list string) :
  includes x l = false ↔ x ∉ l.
Proof. unfold includes. apply bool_decide_eq_false. Qed.

Lemma newLikes_member (uid : string) (post : Post) :
  uid ∈ default [] (p_likes (post_doc post)) →
  newLikes uid post
  = filter (λ id, id ≠ uid) (default [] (p_likes (post_doc post)))
  ∧ uid ∉ newLikes uid post.
Proof.
  intros Hin. unfold newLikes.
  apply includes_true in Hin as Hb. rewrite Hb. split; [done|].
  rewrite list_elem_of_filter. tauto.
Qed.

Lemma newLikes_nonmember (uid : string) (post : Post) :
  uid ∉ default [] (p_likes (post_doc post)) →
  newLikes uid post = default [] (p_likes (post_doc post)) ++ [uid]
  ∧ uid ∈ newLikes uid post.
Proof.
  intros Hin. unfold newLikes.
  apply includes_false in Hin as Hb. rewrite Hb. split; [done|].
  apply elem_of_app. right. apply list_elem_of_singleton. done.
Qed.

Lemma newLikes_flips (uid : string) (post : Post) :
  uid ∈ newLikes uid post ↔ uid ∉ default [] (p_likes (post_doc post)).
Proof.
  destruct (decide (uid ∈ default [] (p_likes (post_doc post)))) as [Hin|Hin].
  - destruct (newLikes_member uid post Hin) as [_ Hout]. tauto.
  - destruct (newLikes_nonmember uid post Hin) as [_ Hout]. tauto.
Qed.

Lemma handleLike_store (st : Store) (postId uid : string) (d : PostData)
    (ui : PostItemState) (console : list string) :
  st !! postId = Some d → truthy uid = true →
  handleLike (Some FirestoreHandle) (Some uid) (mkPost postId d) ui console st
  = mkOutcome
      (<[postId := applyUpdate (UpdLikes (newLikes uid (mkPost postId d))) d]> st)
      ui console JsUndefined.
Proof.
  intros Hd Hu. unfold handleLike, updateDoc. simpl. by rewrite Hu, Hd.
Qed.

Lemma clickLike_lookup (st : Store) (postId uid : string) (d : PostData) :
  st !! postId = Some d → truthy uid = true →
  clickLike uid postId st !! postId
  = Some (applyUpdate (UpdLikes (newLikes uid (mkPost postId d))) d).
Proof.
  intros Hd Hu. unfold clickLike, renderedPost. rewrite Hd.
  change (mkPost postId <$> Some d) with (Some (mkPost postId d)).
  cbv beta iota.
  rewrite (handleLike_store st postId uid d _ _ Hd Hu). simpl.
  apply lookup_insert_eq.
Qed.

(** C2, as the code has it.  For a post of the collection and a signed-in
    identity (a non-empty user id, with the database handle set),
    [handleLike] writes the like list without the identity when the identity
    is in it, and the like list with the identity appended otherwise; the
    like state the view derives afterwards is [false], respectively [true].
    No other field of the post and no other post changes.  The handler
    itself returns no value: its result is [undefined] in both cases. *)
Theorem handleLike_toggles (st : Store) (postId uid : string) (d : PostData)
    (ui : PostItemState) (console : list string) :
  st !! postId = Some d → truthy uid = true →
  let r := handleLike (Some FirestoreHandle) (Some uid) (mkPost postId d)
             ui console st in
  let currentLikes := default [] (p_likes d) in
  ∃ d',
    o_store r = (<[postId := d']> st)
    ∧ o_returned r = JsUndefined ∧ o_ui r = ui ∧ o_console r = console
    ∧ (uid ∈ currentLikes →
       p_likes d' = Some (filter (λ id, id ≠ uid) currentLikes)
       ∧ (uid ∉ default [] (p_likes d'))
       ∧ userLiked uid (mkPost postId d') = false)
    ∧ (uid ∉ currentLikes →
       p_likes d' = Some (currentLikes ++ [uid])
       ∧ uid ∈ default [] (p_likes d')
       ∧ userLiked uid (mkPost postId d') = true)
    ∧ p_userId d' = p_userId d ∧ p_content d' = p_content d
    ∧ p_timestamp d' = p_timestamp d ∧ p_comments d' = p_comments d
    ∧ (∀ other, other ≠ postId → o_store r !! other = st !! other).
Proof.
  intros Hd Hu r currentLikes. subst r.
  rewrite (handleLike_store st postId uid d ui console Hd Hu). simpl.
  eexists. split; [reflexivity|]. simpl.
  split; [done|]. split; [done|]. split; [done|].
  split; [|split].
  - intros Hin.
    destruct (newLikes_member uid (mkPost postId d) Hin) as [Heq Hout].
    unfold userLiked. simpl. rewrite includes_false.
    split; [by f_equal|done].
  - intros Hin.
    destruct (newLikes_nonmember uid (mkPost postId d) Hin) as [Heq Hmem].
    unfold userLiked. simpl. rewrite includes_true.
    split; [by f_equal|done].
  - repeat split; try done.
    intros other Hne. by rewrite lookup_insert_ne.
Qed.

Lemma handleLike_toggles_witness :
  ∃ d',
    o_store (handleLike (Some FirestoreHandle) (Some "bob")
               (mkPost "p1" heronPost) (mkPostItemState false "") []
               heronStore)
    = (<["p1" := d']> heronStore)
    ∧ p_likes d' = Some ["bob"].
Proof.
  destruct (handleLike_toggles heronStore "p1" "bob" heronPost
              (mkPostItemState false "") [] eq_refl eq_refl)
    as (d' & Hstore & _ & _ & _ & _ & Hadd & _).
  exists d'. split; [exact Hstore|].
  apply Hadd. simpl. intros Hin. by apply elem_of_nil in Hin.
Defined.

(** C2 as stated fails on the return value: liking a post one has not liked
    yet adds the identity, but the handler's result is [undefined], not
    [true]. *)
Lemma handleLike_returns_no_bool :
  let r := handleLike (Some FirestoreHandle) (Some "bob")
             (mkPost "p1" heronPost) (mkPostItemState false "") []
             heronStore in
  ("bob" ∉ default [] (p_likes heronPost))
  ∧ (p_likes <$> o_store r !! "p1") = Some (Some ["bob"])
  ∧ o_returned r = JsUndefined
  ∧ o_returned r ≠ JsBool true.
Proof.
  simpl. split; [|split; [|split]].
  - intros Hin. by apply elem_of_nil in Hin.
  - by vm_compute.
  - reflexivity.
  - discriminate.
Qed.

Lemma clickLike_flips (st : Store) (postId uid : string) (d : PostData) :
  st !! postId = Some d → truthy uid = true →
  ∃ d', clickLike uid postId st !! postId = Some d'
        ∧ (uid ∈ default [] (p_likes d') ↔ uid ∉ default [] (p_likes d)).
Proof.
  intros Hd Hu. eexists. split; [by apply clickLike_lookup|].
  simpl. apply (newLikes_flips uid (mkPost postId d)).
Qed.

(** C3.  Starting from a collection in which the identity has not liked the
    post, after [n] clicks on the like button by that identity, each on the
    post as then stored, the identity is in the like list exactly when [n]
    is odd. *)
Theorem like_membership_parity (st : Store) (postId uid : string)
    (d : PostData) (n : nat) :
  st !! postId = Some d → truthy uid = true →
  uid ∉ default [] (p_likes d) →
  ∃ d', Nat.iter n (clickLike uid postId) st !! postId = Some d'
        ∧ (uid ∈ default [] (p_likes d') ↔ Nat.Odd n).
Proof.
  intros Hd Hu Hout. induction n as [|n IH].
  - exists d. split; [done|]. split; [done|].
    intros [k Hk]. lia.
  - destruct IH as (d1 & Hd1 & Hpar). simpl.
    destruct (clickLike_flips _ postId uid d1 Hd1 Hu) as (d2 & Hd2 & Hflip).
    exists d2. split; [done|].
    rewrite Hflip, Hpar, Nat.Odd_succ.
    split.
    + intros Hno. destruct (Nat.Even_or_Odd n) as [He|Ho]; [done|].
      by destruct Hno.
    + intros He Ho. exact (Nat.Even_Odd_False n He Ho).
Qed.

Lemma like_membership_parity_witness :
  ∃ d', Nat.iter 3 (clickLike "bob" "p1") heronStore !! "p1" = Some d'
        ∧ "bob" ∈ default [] (p_likes d').
Proof.
  assert (Hout : "bob" ∉ default [] (p_likes heronPost)).
  { simpl. intros Hin. by apply elem_of_nil in Hin. }
  destruct (like_membership_parity heronStore "p1" "bob" heronPost 3
              eq_refl eq_refl Hout) as (d' & Hd' & Hiff).
  exists d'. split; [exact Hd'|].
  apply Hiff. exists 1%nat. reflexivity.
Defined.

(** ** Re-delivered writes *)

Lemma arrayUnion_elem (c : Comment) (l : list Comment) : c ∈ arrayUnion c l.
Proof.
  unfold arrayUnion. case_bool_decide; [done|].
  apply elem_of_app. right. by apply list_elem_of_singleton.
Qed.

Lemma arrayUnion_idem (c : Comment) (l : list Comment) :
  arrayUnion c (arrayUnion c l) = arrayUnion c l.
Proof.
  pose proof (arrayUnion_elem c l) as Hin.
  unfold arrayUnion at 1. by rewrite bool_decide_eq_true_2.
Qed.

Lemma applyUpdate_idem (u : FieldUpdate) (d : PostData) :
  applyUpdate u (applyUpdate u d) = applyUpdate u d.
Proof.
  destruct u as [l|c]; simpl; [done|].
  by rewrite arrayUnion_idem.
Qed.

Lemma updateDoc_idem (docId : string) (u : FieldUpdate) (st st1 : Store) :
  updateDoc docId u st = inr st1 → updateDoc docId u st1 = inr st1.
Proof.
  unfold updateDoc. destruct (st !! docId) as [d|] eqn:Hd; [|done].
  intros [= <-]. rewrite lookup_insert_eq, applyUpdate_idem.
  by rewrite insert_insert_eq.
Qed.

(** A comment sent by a signed-in user with a text that is not blank always
    ends in the [catch] branch. *)
Lemma handleAddComment_caught (handle : Firestore) (uid : string)
    (post : Post) (now : Timestamp) (ui : PostItemState)
    (console : list string) (st : Store) :
  truthy uid = true → truthy (trim (commentText ui)) = true →
  handleAddComment (Some handle) (Some uid) post now ui console st
  = mkOutcome st ui (console ++ ["Error adding comment:"]) JsUndefined.
Proof.
  intros Hu Ht. unfold handleAddComment, updateDoc_arrayUnion.
  by rewrite Hu, Ht.
Qed.

(** Whatever it is given, [handleAddComment] leaves the collection and the
    form as they are. *)
Lemma handleAddComment_store_ui (db : option Firestore)
    (userId : option string) (post : Post) (now : Timestamp)
    (ui : PostItemState) (console : list string) (st : Store) :
  o_store (handleAddComment db userId post now ui console st) = st
  ∧ o_ui (handleAddComment db userId post now ui console st) = ui.
Proof.
  unfold handleAddComment, updateDoc_arrayUnion.
  destruct db, userId as [uid|]; try done.
  by destruct (truthy uid && truthy (trim (commentText ui))).
Qed.

(** C1, on the code.  The like half holds: a like write that is delivered
    again, be it the payload or the whole click on the post as it was first
    rendered, leaves exactly the collection that one delivery leaves.  The
    comment half does not: the update [handleAddComment] issues puts
    [serverTimestamp()] inside [arrayUnion()], the client refuses it, and a
    comment sent once or sent again leaves the collection and the form as
    they were and one more line on the console each time.  No copy of the
    comment is stored, where the claim has exactly one. *)
Theorem redelivered_like_merges_comment_is_refused :
  (∀ (docId : string) (likes : list string) (st st1 : Store),
      updateDoc docId (UpdLikes likes) st = inr st1 →
      updateDoc docId (UpdLikes likes) st1 = inr st1)
  ∧ (∀ (st : Store) (postId uid : string) (d : PostData)
       (ui : PostItemState) (console : list string),
        st !! postId = Some d → truthy uid = true →
        let once := o_store (handleLike (Some FirestoreHandle) (Some uid)
                               (mkPost postId d) ui console st) in
        o_store (handleLike (Some FirestoreHandle) (Some uid)
                   (mkPost postId d) ui console once) = once)
  ∧ (∀ (handle : Firestore) (uid : string) (post : Post) (now : Timestamp)
       (ui : PostItemState) (console : list string) (st : Store),
        truthy uid = true → truthy (trim (commentText ui)) = true →
        let once := handleAddComment (Some handle) (Some uid) post now
                      ui console st in
        let twice := handleAddComment (Some handle) (Some uid) post now
                       (o_ui once) (o_console once) (o_store once) in
        once = mkOutcome st ui (console ++ ["Error adding comment:"])
                 JsUndefined
        ∧ twice = mkOutcome st ui
                    (console
                       ++ ["Error adding comment:"; "Error adding comment:"])
                    JsUndefined).
Proof.
  split; [intros docId likes; apply updateDoc_idem|]. split.
  - intros st postId uid d ui console Hd Hu once. subst once.
    rewrite (handleLike_store st postId uid d ui console Hd Hu). simpl.
    unfold handleLike, updateDoc. simpl.
    rewrite Hu, lookup_insert_eq. simpl. by rewrite insert_insert_eq.
  - intros handle uid post now ui console st Hu Ht once twice.
    subst twice once.
    rewrite (handleAddComment_caught handle uid post now ui console st Hu Ht).
    cbn [o_ui o_console o_store].
    rewrite (handleAddComment_caught handle uid post now ui _ st Hu Ht).
    split; [done|]. by rewrite <- app_assoc.
Qed.

Lemma redelivered_like_merges_comment_is_refused_witness :
  let once := handleAddComment (Some FirestoreHandle) (Some "carol")
                (mkPost "p1" heronPost) (mkTimestamp 1700000060 0)
                (mkPostItemState false "hi @bob") [] heronStore in
  let twice := handleAddComment (Some FirestoreHandle) (Some "carol")
                 (mkPost "p1" heronPost) (mkTimestamp 1700000060 0)
                 (o_ui once) (o_console once) (o_store once) in
  p_comments <$> o_store once !! "p1" = Some (Some [])
  ∧ p_comments <$> o_store twice !! "p1" = Some (Some [])
  ∧ o_console twice = ["Error adding comment:"; "Error adding comment:"].
Proof.
  destruct redelivered_like_merges_comment_is_refused as (_ & _ & Hcomment).
  destruct (Hcomment FirestoreHandle "carol" (mkPost "p1" heronPost)
              (mkTimestamp 1700000060 0) (mkPostItemState false "hi @bob")
              [] heronStore eq_refl eq_refl) as [Honce Htwice].
  cbv zeta. rewrite Htwice, Honce. simpl. by vm_compute.
Defined.

(** ** Comments *)

Section Array_sort_by_key.
Context {A : Type} (keyOf : A → Z).

(** A comparator that subtracts keys, as [bySeconds] does. *)
Let compareKeys (a b : A) : Z := keyOf a - keyOf b.

Lemma sort_insert_Permutation (x : A) (l : list A) :
  sort_insert compareKeys x l ≡ₚ x :: l.
Proof.
  induction l as [|y l IH]; simpl; [done|].
  destruct (compareKeys x y <=? 0); [done|].
  rewrite IH. apply Permutation_swap.
Qed.

Lemma Array_sort_Permutation (l : list A) :
  Array_sort compareKeys l ≡ₚ l.
Proof.
  induction l as [|x l IH]; simpl; [done|].
  by rewrite sort_insert_Permutation, IH.
Qed.

Lemma sort_insert_sorted (x : A) (l : list A) :
  StronglySorted (λ a b, keyOf a ≤ keyOf b) l →
  StronglySorted (λ a b, keyOf a ≤ keyOf b) (sort_insert compareKeys x l).
Proof.
  induction 1 as [|y l Hs IH Hy]; simpl.
  - repeat constructor.
  - unfold compareKeys at 1.
    destruct (Z.leb_spec (keyOf x - keyOf y) 0) as [Hle|Hgt].
    + constructor; [by constructor|].
      constructor; [lia|].
      eapply Forall_impl; [exact Hy|]. simpl. intros z Hz. lia.
    + constructor; [exact IH|].
      rewrite sort_insert_Permutation. constructor; [lia|exact Hy].
Qed.

Lemma Array_sort_sorted (l : list A) :
  StronglySorted (λ a b, keyOf a ≤ keyOf b) (Array_sort compareKeys l).
Proof.
  induction l as [|x l IH]; simpl; [constructor|].
  by apply sort_insert_sorted.
Qed.


End Array_sort_by_key.



(** ** Failures of handleAddComment *)






(** ** The order of the feed *)

Lemma compareTimestamp_Lt (a b : Timestamp) :
  compareTimestamp a b = Lt ↔ earlier a b.
Proof.
  unfold compareTimestamp, earlier.
  destruct (Z.compare_spec (seconds a) (seconds b));
    destruct (Z.compare_spec (nanoseconds a) (nanoseconds b));
    split; intros; try done; lia.
Qed.

Lemma compareTimestamp_Gt (a b : Timestamp) :
  compareTimestamp a b = Gt ↔ earlier b a.
Proof.
  unfold compareTimestamp, earlier.
  destruct (Z.compare_spec (seconds a) (seconds b));
    destruct (Z.compare_spec (nanoseconds a) (nanoseconds b));
    split; intros; try done; lia.
Qed.

Lemma compareTimestamp_Eq (a b : Timestamp) :
  compareTimestamp a b = Eq ↔ a = b.
Proof.
  unfold compareTimestamp. destruct a as [sa na], b as [sb nb]. simpl.
  destruct (Z.compare_spec sa sb); destruct (Z.compare_spec na nb);
    split; intros Heq; try done; try (by subst);
    injection Heq; intros; lia.
Qed.

Lemma earlier_trans (a b c : Timestamp) :
  earlier a b → earlier b c → earlier a c.
Proof. unfold earlier. lia. Qed.

Lemma earlier_irrefl (a : Timestamp) : ¬ earlier a a.
Proof. unfold earlier. lia. Qed.

Lemma string_compare_le_trans (a b c : string) :
  String.compare a b ≠ Gt → String.compare b c ≠ Gt →
  String.compare a c ≠ Gt.
Proof.
  intros Hab Hbc.
  destruct (String.compare a b) eqn:Eab; [| |done].
  { apply String.compare_eq_iff in Eab. by subst. }
  destruct (String.compare b c) eqn:Ebc; [| |done].
  { apply String.compare_eq_iff in Ebc. subst. by rewrite Eab. }
  apply String_as_OT.cmp_lt in Eab, Ebc.
  pose proof (String_as_OT.lt_trans _ _ _ Eab Ebc) as Hac.
  apply String_as_OT.cmp_lt in Hac. unfold String_as_OT.cmp in Hac.
  by rewrite Hac.
Qed.

Lemma string_compare_le_antisym (a b : string) :
  String.compare a b ≠ Gt → String.compare b a ≠ Gt → a = b.
Proof.
  intros Hab Hba. rewrite String.compare_antisym in Hba.
  destruct (String.compare a b) eqn:Eab; simpl in Hba; try done.
  by apply String.compare_eq_iff.
Qed.

Lemma string_compare_le_total (a b : string) :
  String.compare a b ≠ Gt ∨ String.compare b a ≠ Gt.
Proof.
  rewrite (String.compare_antisym b a).
  destruct (String.compare a b); simpl; auto.
Qed.

(** What the order of the query says about two documents. *)
Lemma queryBefore_spec (x y : Doc) :
  queryBefore x y
  ↔ earlier (p_timestamp y.2) (p_timestamp x.2)
    ∨ (p_timestamp y.2 = p_timestamp x.2 ∧ String.compare y.1 x.1 ≠ Gt).
Proof.
  unfold queryBefore, queryCompare.
  destruct (compareTimestamp (p_timestamp y.2) (p_timestamp x.2)) eqn:E.
  - apply compareTimestamp_Eq in E. split; [by right|].
    intros [He|[_ Hs]]; [|done].
    rewrite E in He. by apply earlier_irrefl in He.
  - apply compareTimestamp_Lt in E. split; [by left|done].
  - apply compareTimestamp_Gt in E. split; [done|].
    intros [He|[Heq _]].
    + by destruct (earlier_irrefl _ (earlier_trans _ _ _ He E)).
    + rewrite Heq in E. by apply earlier_irrefl in E.
Qed.

#[global] Instance queryBefore_trans : Transitive queryBefore.
Proof.
  intros x y z. rewrite !queryBefore_spec.
  intros [Hxy|[Exy Sxy]] [Hyz|[Eyz Syz]].
  - left. eapply earlier_trans; eauto.
  - left. by rewrite Eyz.
  - left. by rewrite <- Exy.
  - right. split; [congruence|]. eapply string_compare_le_trans; eauto.
Qed.

#[global] Instance queryBefore_total : Total queryBefore.
Proof.
  intros x y. rewrite !queryBefore_spec.
  destruct (compareTimestamp (p_timestamp x.2) (p_timestamp y.2)) eqn:E.
  - apply compareTimestamp_Eq in E.
    destruct (string_compare_le_total x.1 y.1); [right|left]; right; done.
  - apply compareTimestamp_Lt in E. by right; left.
  - apply compareTimestamp_Gt in E. by left; left.
Qed.

Lemma queryBefore_antisym_id (x y : Doc) :
  queryBefore x y → queryBefore y x → x.1 = y.1.
Proof.
  rewrite !queryBefore_spec.
  intros [Hxy|[Exy Sxy]] [Hyx|[Eyx Syx]].
  - by destruct (earlier_irrefl _ (earlier_trans _ _ _ Hxy Hyx)).
  - rewrite Eyx in Hxy. by apply earlier_irrefl in Hxy.
  - rewrite Exy in Hyx. by apply earlier_irrefl in Hyx.
  - by apply string_compare_le_antisym.
Qed.

Lemma queryDocs_Permutation (docs : list Doc) : queryDocs docs ≡ₚ docs.
Proof. apply merge_sort_Permutation. Qed.

Lemma queryDocs_sorted (docs : list Doc) :
  StronglySorted queryBefore (queryDocs docs).
Proof. apply StronglySorted_merge_sort; apply _. Qed.

(** Two documents of a list with distinct ids that are the same as far as
    the order goes are the same document. *)
Lemma same_id_same_doc (docs : list Doc) (x y : Doc) :
  NoDup docs.*1 → x ∈ docs → y ∈ docs → x.1 = y.1 → x = y.
Proof.
  intros Hnd Hx Hy Hid.
  destruct x as [i v], y as [j w]. simpl in Hid. subst j.
  f_equal. revert Hnd Hx Hy.
  induction docs as [|[k u] docs IH]; csimpl; intros Hnd Hx Hy.
  { by apply elem_of_nil in Hx. }
  apply NoDup_cons in Hnd as [Hk Hnd].
  apply elem_of_cons in Hx as [Hx|Hx], Hy as [Hy|Hy].
  - congruence.
  - injection Hx as -> ->. destruct Hk.
    apply list_elem_of_fmap. by exists (k, w).
  - injection Hy as -> ->. destruct Hk.
    apply list_elem_of_fmap. by exists (k, v).
  - by apply IH.
Qed.

(** The query result is fixed by the set of documents: the order in which
    the collection holds them does not matter. *)
Lemma queryDocs_order_independent (docs1 docs2 : list Doc) :
  NoDup docs1.*1 → docs1 ≡ₚ docs2 → queryDocs docs1 = queryDocs docs2.
Proof.
  intros Hnd Hperm.
  apply (StronglySorted_unique_strong queryBefore);
    [|apply queryDocs_sorted..|].
  - intros x y Hx Hy Hxy Hyx.
    rewrite queryDocs_Permutation in Hx.
    rewrite queryDocs_Permutation, <- Hperm in Hy.
    eapply same_id_same_doc; eauto using queryBefore_antisym_id.
  - by rewrite !queryDocs_Permutation.
Qed.

Lemma snapshot_fmap (st : Store) : snapshot st = toPost <$> postsQuery st.
Proof. reflexivity. Qed.

Lemma postsQuery_Permutation (st : Store) : postsQuery st ≡ₚ map_to_list st.
Proof. apply queryDocs_Permutation. Qed.

Lemma elem_of_snapshot (st : Store) (p : Post) :
  p ∈ snapshot st ↔ st !! post_id p = Some (post_doc p).
Proof.
  rewrite snapshot_fmap, list_elem_of_fmap. split.
  - intros ([i v] & -> & Hin). simpl.
    rewrite postsQuery_Permutation in Hin. by apply elem_of_map_to_list.
  - intros Hp. exists (post_id p, post_doc p). split; [by destruct p|].
    rewrite postsQuery_Permutation. by apply elem_of_map_to_list.
Qed.

Lemma queryBefore_strict (x y : Doc) :
  queryBefore x y → x.1 ≠ y.1 → listedBefore (toPost x) (toPost y).
Proof.
  rewrite queryBefore_spec. unfold listedBefore. simpl.
  intros [He|[Heq Hs]] Hne; [by left|right].
  split; [done|].
  destruct (String.compare y.1 x.1) eqn:E; try done.
  apply String.compare_eq_iff in E. congruence.
Qed.

Lemma sorted_distinct_ids (docs : list Doc) :
  StronglySorted queryBefore docs → NoDup docs.*1 →
  StronglySorted (λ x y, listedBefore (toPost x) (toPost y)) docs.
Proof.
  induction 1 as [|x docs Hs IH Hall]; csimpl; intros Hnd; [constructor|].
  apply NoDup_cons in Hnd as [Hx Hnd].
  constructor; [by apply IH|].
  rewrite Forall_forall in Hall |- *. intros y Hy.
  apply queryBefore_strict; [by apply Hall|].
  intros Heq. apply Hx. rewrite Heq. by apply list_elem_of_fmap_2.
Qed.

Lemma snapshot_sorted (st : Store) : StronglySorted listedBefore (snapshot st).
Proof.
  rewrite snapshot_fmap.
  apply (StronglySorted_fmap toPost
           (λ x y, listedBefore (toPost x) (toPost y))); [done|].
  apply sorted_distinct_ids; [apply queryDocs_sorted|].
  unfold postsQuery. rewrite queryDocs_Permutation.
  apply NoDup_fst_map_to_list.
Qed.

Lemma updated_id (docId : string) (u : FieldUpdate) (doc : Doc) :
  (updated docId u doc).1 = doc.1.
Proof. unfold updated. by case_decide. Qed.

Lemma updated_timestamp (docId : string) (u : FieldUpdate) (doc : Doc) :
  p_timestamp (updated docId u doc).2 = p_timestamp doc.2.
Proof. unfold updated. case_decide; [|done]. by destruct u. Qed.

Lemma updated_queryBefore (docId : string) (u : FieldUpdate) (x y : Doc) :
  queryBefore x y → queryBefore (updated docId u x) (updated docId u y).
Proof.
  rewrite !queryBefore_spec. by rewrite !updated_id, !updated_timestamp.
Qed.

Lemma map_to_list_updated (docId : string) (u : FieldUpdate) (st : Store)
    (d : PostData) :
  st !! docId = Some d →
  map_to_list (<[docId := applyUpdate u d]> st)
  ≡ₚ updated docId u <$> map_to_list st.
Proof.
  intros Hd. apply NoDup_Permutation.
  - apply NoDup_map_to_list.
  - apply (NoDup_fmap_1 fst).
    rewrite <- list_fmap_compose.
    rewrite (list_fmap_ext (fst ∘ updated docId u) fst _
               (λ _ x _, updated_id docId u x)).
    apply NoDup_fst_map_to_list.
  - intros [k v]. rewrite elem_of_map_to_list, list_elem_of_fmap. split.
    + intros Hk. destruct (decide (k = docId)) as [->|Hne].
      * rewrite lookup_insert_eq in Hk. injection Hk as <-.
        exists (docId, d). split; [|by apply elem_of_map_to_list].
        unfold updated. simpl. by rewrite decide_True.
      * rewrite lookup_insert_ne in Hk by done.
        exists (k, v). split; [|by apply elem_of_map_to_list].
        unfold updated. simpl. by rewrite decide_False.
    + intros ([k0 v0] & Heq & Hin). apply elem_of_map_to_list in Hin.
      unfold updated in Heq. simpl in Heq. case_decide; simplify_eq.
      * by rewrite lookup_insert_eq.
      * by rewrite lookup_insert_ne.
Qed.

Lemma postsQuery_updated (docId : string) (u : FieldUpdate) (st : Store)
    (d : PostData) :
  st !! docId = Some d →
  postsQuery (<[docId := applyUpdate u d]> st)
  = updated docId u <$> postsQuery st.
Proof.
  intros Hd. pose proof (map_to_list_updated docId u st d Hd) as Hperm.
  assert (Hl : postsQuery (<[docId := applyUpdate u d]> st)
               ≡ₚ updated docId u <$> postsQuery st).
  { unfold postsQuery. by rewrite !queryDocs_Permutation. }
  apply (StronglySorted_unique_strong queryBefore); [| | |exact Hl].
  - intros x y Hx Hy Hxy Hyx. rewrite <- Hl in Hy.
    unfold postsQuery in Hx, Hy. rewrite queryDocs_Permutation in Hx, Hy.
    apply (same_id_same_doc (map_to_list (<[docId := applyUpdate u d]> st)));
      [apply NoDup_fst_map_to_list|done|done|].
    by apply queryBefore_antisym_id.
  - apply queryDocs_sorted.
  - apply (StronglySorted_fmap _ queryBefore);
      [apply updated_queryBefore|apply queryDocs_sorted].
Qed.

(** C4.  For every collection, the feed lists exactly the posts of the
    collection, each standing before every post created earlier and, among
    posts of one creation time, before every post of smaller id.  The feed
    is fixed by the posts themselves: in whatever order the documents were
    inserted into the collection the listener is handed the same feed, and
    an update of a post (its likes or its comments) leaves the order of the
    feed as it was. *)
Theorem snapshot_ordered_deterministic :
  (∀ st : Store,
      (∀ p, p ∈ snapshot st ↔ st !! post_id p = Some (post_doc p))
      ∧ StronglySorted listedBefore (snapshot st))
  ∧ (∀ docs1 docs2 : list Doc,
        NoDup docs1.*1 → docs1 ≡ₚ docs2 →
        posts (onPostsSnapshot (queryDocs docs1))
        = posts (onPostsSnapshot (queryDocs docs2))
        ∧ posts (onPostsSnapshot (queryDocs docs1))
          = snapshot (list_to_map docs1))
  ∧ (∀ (docId : string) (u : FieldUpdate) (st st' : Store),
        updateDoc docId u st = inr st' →
        post_id <$> snapshot st' = post_id <$> snapshot st).
Proof.
  split; [|split].
  - intros st. split; [apply elem_of_snapshot|apply snapshot_sorted].
  - intros docs1 docs2 Hnd Hperm.
    split; [by rewrite (queryDocs_order_independent docs1 docs2)|].
    unfold snapshot, postsQuery.
    rewrite (queryDocs_order_independent docs1
               (map_to_list (list_to_map docs1))); [done..|].
    symmetry. by apply map_to_list_to_map.
  - intros docId u st st'. unfold updateDoc.
    destruct (st !! docId) as [d|] eqn:Hd; [|done]. intros [= <-].
    rewrite !snapshot_fmap, (postsQuery_updated docId u st d Hd).
    rewrite <- !list_fmap_compose.
    apply list_fmap_ext. intros _ x _. simpl. apply updated_id.
Qed.

Lemma snapshot_ordered_deterministic_witness :
  post_id <$> posts (onPostsSnapshot (queryDocs threePosts)) = ["c"; "b"; "a"]
  ∧ posts (onPostsSnapshot (queryDocs (reverse threePosts)))
    = posts (onPostsSnapshot (queryDocs threePosts))
  ∧ match updateDoc "a" (UpdLikes ["bob"]) (list_to_map threePosts) with
    | inr st' => post_id <$> snapshot st' = ["c"; "b"; "a"]
    | inl _ => False
    end.
Proof.
  destruct snapshot_ordered_deterministic as (_ & Hdet & Hupd).
  split; [by vm_compute|]. split.
  - apply (Hdet (reverse threePosts) threePosts).
    + apply (bool_decide_unpack (NoDup (reverse threePosts).*1)).
      vm_compute. exact I.
    + apply reverse_Permutation.
  - destruct (updateDoc "a" (UpdLikes ["bob"]) (list_to_map threePosts))
      as [e|st'] eqn:E.
    + vm_compute in E. discriminate E.
    + rewrite (Hupd _ _ _ _ E). vm_compute. reflexivity.
Defined.

(** ** Creating a post *)











(** ** Listeners *)

Lemma snapshot_docs (st : Store) :
  (λ post, (post_id post, post_doc post)) <$> snapshot st = postsQuery st.
Proof.
  rewrite snapshot_fmap, <- list_fmap_compose.
  rewrite <- (list_fmap_id (postsQuery st)) at 2.
  apply list_fmap_ext. by intros i [docId d] _.
Qed.

Lemma applyEvent_initial (view st : Store) :
  applyEvent view (InitialSnapshot (snapshot st)) = st.
Proof.
  unfold applyEvent. rewrite snapshot_docs.
  rewrite <- (list_to_map_to_list st) at 2.
  apply list_to_map_proper; [|apply postsQuery_Permutation].
  rewrite postsQuery_Permutation. apply NoDup_fst_map_to_list.
Qed.

Lemma replay_initial (st : Store) (events : list ChangeEvent) :
  replay (InitialSnapshot (snapshot st) :: events)
  = fold_left applyEvent events st.
Proof. unfold replay. cbn [fold_left]. by rewrite applyEvent_initial. Qed.

Lemma applyWrite_event (w : Write) (st st' : Store) (e : ChangeEvent) :
  applyWrite w st = Some (st', e) → isChange e ∧ applyEvent st e = st'.
Proof.
  destruct w as [autoId d|docId u]; simpl.
  - unfold addDoc. intros [= <- <-]. by split.
  - unfold updateDoc. destruct (st !! docId) as [d|]; [|done].
    rewrite lookup_insert_eq. simpl. intros [= <- <-]. by split.
Qed.

Lemma write_store (w : Write) (h : Hub) :
  hub_store (write w h)
  = default (hub_store h) (fst <$> applyWrite w (hub_store h)).
Proof.
  unfold write. destruct (applyWrite w (hub_store h)) as [[st' e]|]; [|done].
  simpl. by case_decide.
Qed.

Lemma writes_store (ws : list Write) (h : Hub) :
  hub_store (writes ws h) = storeAfter ws (hub_store h).
Proof.
  unfold writes, storeAfter. revert h.
  induction ws as [|w ws IH]; intros h; [done|].
  simpl. by rewrite IH, write_store.
Qed.

Lemma writes_listeners (ws : list Write) (h : Hub) (handle : nat) :
  hub_listeners (writes ws h) !! handle
  = (λ events, events ++ laterEvents ws (hub_store h))
      <$> hub_listeners h !! handle.
Proof.
  unfold writes. revert h.
  induction ws as [|w ws IH]; intros h; simpl.
  - destruct (hub_listeners h !! handle) as [events|]; [|done].
    simpl. by rewrite app_nil_r.
  - rewrite IH. unfold write.
    destruct (applyWrite w (hub_store h)) as [[st' e]|]; [|done].
    case_decide as Hst; [done|].
    simpl. rewrite lookup_fmap.
    destruct (hub_listeners h !! handle) as [events|]; [|done].
    simpl. by rewrite <- app_assoc.
Qed.

Lemma laterEvents_isChange (ws : list Write) (st : Store) :
  Forall isChange (laterEvents ws st).
Proof.
  revert st. induction ws as [|w ws IH]; intros st; simpl; [constructor|].
  destruct (applyWrite w st) as [[st' e]|] eqn:Hw; [|apply IH].
  case_decide; [apply IH|].
  constructor; [|apply IH]. by destruct (applyWrite_event _ _ _ _ Hw).
Qed.

Lemma laterEvents_replay (ws : list Write) (st : Store) :
  fold_left applyEvent (laterEvents ws st) st = storeAfter ws st.
Proof.
  unfold storeAfter. revert st.
  induction ws as [|w ws IH]; intros st; simpl; [done|].
  destruct (applyWrite w st) as [[st' e]|] eqn:Hw; simpl; [|apply IH].
  case_decide as Hst.
  - subst st'. apply IH.
  - cbn [fold_left]. destruct (applyWrite_event _ _ _ _ Hw) as [_ ->].
    apply IH.
Qed.

Lemma laterEvents_news (ws : list Write) (st : Store)
    (seen : list ChangeEvent) (e : ChangeEvent) (rest : list ChangeEvent) :
  laterEvents ws st = seen ++ e :: rest →
  fold_left applyEvent (seen ++ [e]) st ≠ fold_left applyEvent seen st.
Proof.
  revert st seen.
  induction ws as [|w ws IH]; intros st seen; simpl.
  - by destruct seen.
  - destruct (applyWrite w st) as [[st' e0]|] eqn:Hw; [|apply IH].
    case_decide as Hst; [apply IH|].
    destruct (applyWrite_event _ _ _ _ Hw) as [_ He0].
    destruct seen as [|e1 seen]; simpl.
    + intros [= <- _]. by rewrite He0.
    + intros [= <- Hrest]. rewrite He0. by apply IH.
Qed.

(** C8. An observer that subscribes after some writes is handed the feed of
    that moment as one initial event, which holds the whole collection.
    After that it is handed one change event for each later mutation and
    nothing else: the events do not depend on what was written before the
    subscription, none of them is a second initial event, and replaying
    them on the initial feed gives the collection as it then is.  No event
    is a duplicate: each one changes the picture the events before it gave,
    so a write delivered once more, which changes nothing, is not
    announced. *)
Theorem late_subscriber_deliveries (h0 : Hub)
    (earlier_writes later_writes : list Write) :
  let h := writes earlier_writes h0 in
  let handle := (subscribe h).1 in
  let h1 := (subscribe h).2 in
  let initial := InitialSnapshot (snapshot (hub_store h)) in
  let changes := laterEvents later_writes (hub_store h) in
  hub_listeners h1 !! handle = Some [initial]
  ∧ replay [initial] = hub_store h
  ∧ hub_listeners (writes later_writes h1) !! handle
    = Some (initial :: changes)
  ∧ Forall isChange changes
  ∧ replay (initial :: changes) = hub_store (writes later_writes h1)
  ∧ (∀ seen e rest,
       changes = seen ++ e :: rest →
       replay (initial :: seen ++ [e]) ≠ replay (initial :: seen)).
Proof.
  intros h handle h1 initial changes.
  assert (Hfirst : hub_listeners h1 !! handle = Some [initial])
    by apply lookup_insert_eq.
  split; [exact Hfirst|].
  split; [apply replay_initial|].
  split; [by rewrite writes_listeners, Hfirst|].
  split; [apply laterEvents_isChange|].
  split.
  - unfold initial. rewrite replay_initial, writes_store.
    apply laterEvents_replay.
  - intros seen e rest Hsplit. unfold initial.
    rewrite !replay_initial.
    by apply (laterEvents_news later_writes _ _ _ rest).
Qed.

Lemma late_subscriber_deliveries_witness :
  let like := WUpdateDoc "p1" (UpdLikes ["bob"]) in
  let h := writes [WAddDoc "p1" heronPost] (mkHub ∅ ∅ 0) in
  let initial := InitialSnapshot [mkPost "p1" heronPost] in
  let liked :=
    PostUpdated (mkPost "p1" (applyUpdate (UpdLikes ["bob"]) heronPost)) in
  hub_listeners (writes [like; like] (subscribe h).2) !! (subscribe h).1
  = Some [initial; liked]
  ∧ replay [initial; liked] ≠ replay [initial].
Proof.
  intros like h initial liked.
  pose proof (late_subscriber_deliveries (mkHub ∅ ∅ 0)
                [WAddDoc "p1" heronPost] [like; like]) as H.
  cbv zeta in H. fold h in H.
  destruct H as (_ & _ & Hlog & _ & _ & Hnew).
  assert (Hsnap : snapshot (hub_store h) = [mkPost "p1" heronPost])
    by (by vm_compute).
  assert (Hev : laterEvents [like; like] (hub_store h) = [liked])
    by (by vm_compute).
  rewrite Hsnap, Hev in Hlog, Hnew.
  split; [exact Hlog|].
  apply (Hnew [] liked []). reflexivity.
Defined.

(** ** Mentions *)

Lemma isAt_true (c : ascii) : isAt c = true → c = "@"%char.
Proof.
  unfold isAt. intros H. apply Nat.eqb_eq in H.
  rewrite <- (ascii_nat_embedding c), H. reflexivity.
Qed.

Lemma exec_isMatch (s : string) (idx : nat) (m : RegExpMatch) (rest : string)
    (idx' : nat) :
  exec s idx = Some (m, rest, idx') → isMatch m.
Proof.
  revert idx. induction s as [|c s IH]; intros idx; simpl; [done|].
  destruct (isAt c) eqn:Hc.
  - destruct (takeWhile isAlnum s) as [|a name] eqn:Hname; [apply IH|].
    intros [= <- _ _]. left. exists (String a name).
    apply isAt_true in Hc. by subst c.
  - intros [= <- _ _]. right. by eexists _, _.
Qed.

Lemma dropWhile_length (f : ascii → bool) (s : string) :
  (String.length (dropWhile f s) ≤ String.length s)%nat.
Proof.
  induction s as [|c s IH]; simpl; [done|].
  destruct (f c); simpl; lia.
Qed.

Lemma exec_shorter (s : string) (idx : nat) (m : RegExpMatch) (rest : string)
    (idx' : nat) :
  exec s idx = Some (m, rest, idx') →
  (String.length rest < String.length s)%nat.
Proof.
  revert idx. induction s as [|c s IH]; intros idx; simpl; [done|].
  destruct (isAt c).
  - destruct (takeWhile isAlnum s) as [|a name].
    + intros H. apply IH in H. lia.
    + intros [= _ <- _]. pose proof (dropWhile_length isAlnum s). lia.
  - intros [= _ <- _].
    pose proof (dropWhile_length (λ x, negb (isAt x)) s). lia.
Qed.

(** The loop ends by itself: fuel beyond the length of the text is never
    used. *)
Lemma execLoop_fuel_enough (allUsers : list string) (fuel : nat) :
  ∀ (s : string) (idx : nat) (parts : list Span),
    (String.length s ≤ fuel)%nat →
    execLoop fuel allUsers s idx parts
    = execLoop (String.length s) allUsers s idx parts.
Proof.
  induction fuel as [fuel IH] using lt_wf_ind. intros s idx parts Hlen.
  destruct fuel as [|fuel].
  { assert (String.length s = 0%nat) as -> by lia. done. }
  destruct s as [|c s]; [done|].
  cbn [String.length execLoop].
  destruct (exec (String c s) idx) as [[[m rest] idx']|] eqn:E; [|done].
  apply exec_shorter in E. simpl in E, Hlen.
  rewrite (IH fuel) by lia.
  by rewrite (IH (String.length s)) by lia.
Qed.

Lemma execLoop_parts (allUsers : list string) (fuel : nat) :
  ∀ (s : string) (idx : nat) (parts : list Span) (part : Span),
    part ∈ execLoop fuel allUsers s idx parts →
    part ∈ parts ∨ ∃ m, isMatch m ∧ part ∈ pushFor allUsers m.
Proof.
  induction fuel as [|fuel IH]; intros s idx parts part; simpl; [by left|].
  destruct (exec s idx) as [[[m rest] idx']|] eqn:E; [|by left].
  intros Hin. apply IH in Hin as [Hin|Hin]; [|by right].
  apply elem_of_app in Hin as [Hin|Hin]; [by left|].
  right. exists m. split; [|done]. by eapply exec_isMatch.
Qed.

Lemma isKnownUser_spec (allUsers : list string) (name : string) :
  isKnownUser allUsers name = true
  ↔ ∃ u, u ∈ allUsers ∧ String.prefix name u = true.
Proof.
  unfold isKnownUser, startsWith. rewrite existsb_exists.
  split; intros (u & Hu & Hp); exists u; by rewrite list_elem_of_In in *.
Qed.

(** C9, as the code has it.  Every element of the formatted text that
    begins with [@] is a mention token, [@] followed by the mentioned name,
    and it is shown as referring to a known participant exactly when the
    mentioned name is a prefix of some known identity string; otherwise it
    is shown greyed out.  A name equal to a known identity is the special
    case of a prefix of full length. *)
Theorem mention_known_iff_prefix (text : string) (allUsers : list string)
    (parts : list Span) (part : Span) (name : string) :
  formatTextContent (Some text) allUsers = Some parts →
  part ∈ parts → children part = String "@"%char name →
  (className part = Some "text-blue-500 font-semibold"
   ↔ ∃ u, u ∈ allUsers ∧ String.prefix name u = true)
  ∧ (className part = Some "text-gray-400"
     ↔ ¬ ∃ u, u ∈ allUsers ∧ String.prefix name u = true)
  ∧ (name ∈ allUsers → className part = Some "text-blue-500 font-semibold").
Proof.
  unfold formatTextContent. destruct (truthy text); [|done].
  intros [= <-] Hin Hch.
  apply execLoop_parts in Hin as [Hin|(m & Hm & Hin)].
  { by apply elem_of_nil in Hin. }
  assert (Hcls : className part
                 = Some (if isKnownUser allUsers name
                         then "text-blue-500 font-semibold"
                         else "text-gray-400")).
  { destruct Hm as [(n & H2 & Hn & H0 & H3)|(c & seg & H2 & H3 & H0 & Hc)];
      unfold pushFor in Hin; rewrite H2 in Hin.
    - rewrite Hn in Hin. apply list_elem_of_singleton in Hin. subst part.
      simpl in *. rewrite H0 in Hch. by injection Hch as ->.
    - rewrite H3 in Hin. simpl in Hin.
      apply list_elem_of_singleton in Hin. subst part. simpl in Hch.
      rewrite H0 in Hch. injection Hch as -> _. done. }
  rewrite Hcls, <- isKnownUser_spec.
  split; [|split].
  - destruct (isKnownUser allUsers name); split; done.
  - destruct (isKnownUser allUsers name); split; done.
  - intros Hname.
    assert (isKnownUser allUsers name = true) as ->; [|done].
    apply isKnownUser_spec. exists name. split; [done|].
    clear. induction name as [|c name IH]; simpl; [done|].
    by destruct (ascii_dec c c).
Qed.

Lemma mention_known_iff_prefix_witness :
  className (mkSpan 3 (Some "text-blue-500 font-semibold") "@bob")
  = Some "text-blue-500 font-semibold"
  ↔ ∃ u, u ∈ ["carol"; "bobby"] ∧ String.prefix "bob" u = true.
Proof.
  apply (mention_known_iff_prefix "hi @bob" ["carol"; "bobby"]
           [mkSpan 0 None "hi ";
            mkSpan 3 (Some "text-blue-500 font-semibold") "@bob"]
           (mkSpan 3 (Some "text-blue-500 font-semibold") "@bob") "bob").
  - reflexivity.
  - apply elem_of_cons. right. apply elem_of_cons. left. reflexivity.
  - reflexivity.
Defined.

(** C9 as stated fails on partial names: [@bob] is shown as a known
    participant although the only known identity is [bobby]. *)
Lemma mention_of_a_prefix_is_known :
  formatTextContent (Some "hi @bob") ["bobby"]
  = Some [mkSpan 0 None "hi ";
          mkSpan 3 (Some "text-blue-500 font-semibold") "@bob"]
  ∧ isKnownUser ["bobby"] "bob" = true
  ∧ "bob" ∉ ["bobby"].
Proof.
  split; [reflexivity|]. split; [reflexivity|].
  intros Hin. apply list_elem_of_singleton in Hin. discriminate Hin.
Qed.

(** ** Timestamps *)

Lemma falsy_spec (timestamp : TimestampArg) :
  falsy timestamp = true
  ↔ timestamp = ArgNull ∨ timestamp = ArgUndefined ∨ timestamp = ArgNaN
    ∨ timestamp = ArgNumber 0 ∨ timestamp = ArgString "".
Proof.
  destruct timestamp as [| |ms| |s|t]; simpl.
  - split; [by left|done].
  - split; [by right; left|done].
  - rewrite Z.eqb_eq. split.
    + intros ->. by right; right; right; left.
    + intros [H|[H|[H|[H|H]]]]; congruence.
  - split; [by right; right; left|done].
  - destruct s; simpl; split; try done.
    + by right; right; right; right.
    + intros [H|[H|[H|[H|H]]]]; congruence.
  - split; [done|]. intros [H|[H|[H|[H|H]]]]; congruence.
Qed.

(** C10, as the code has it.  [formatTimestamp] is a total function of its
    argument (a missing value, a number, [NaN], a string or a Firestore
    timestamp) and always yields a string.  It yields "Just now" for every
    falsy argument (null, undefined, NaN, 0 and the empty string) and for a
    date less than one minute before [now] (a date after [now] included),
    "Unknown time" for a truthy argument that gives no valid date, the
    number of whole minutes, respectively whole hours, followed by
    "minute(s) ago" or "hour(s) ago" for an age under one hour, respectively
    under 24 hours, and the calendar date otherwise. *)
Theorem formatTimestamp_cases (Date_parse : string → option Z)
    (toLocaleDateString : Z → string) (now : Z) (timestamp : TimestampArg) :
  let result := formatTimestamp Date_parse toLocaleDateString now timestamp in
  (falsy timestamp = true
   ↔ timestamp = ArgNull ∨ timestamp = ArgUndefined ∨ timestamp = ArgNaN
     ∨ timestamp = ArgNumber 0 ∨ timestamp = ArgString "")
  ∧ (falsy timestamp = true → result = "Just now")
  ∧ (falsy timestamp = false → dateOf Date_parse timestamp = None →
     result = "Unknown time")
  ∧ (∀ date, falsy timestamp = false →
       dateOf Date_parse timestamp = Some date →
       (now - date < 60000 → result = "Just now")
       ∧ (60000 ≤ now - date < 3600000 →
          result = ago ((now - date) / 60000) "minute")
       ∧ (3600000 ≤ now - date < 86400000 →
          result = ago ((now - date) / 3600000) "hour")
       ∧ (86400000 ≤ now - date → result = toLocaleDateString date)).
Proof.
  intros result. subst result. unfold formatTimestamp.
  split; [apply falsy_spec|].
  split; [by intros ->|].
  split; [by intros -> ->|].
  intros date -> ->. change (1000 * 60) with 60000.
  assert (Hhours : (now - date) / 60000 / 60 = (now - date) / 3600000).
  { rewrite Z.div_div by lia. reflexivity. }
  rewrite Hhours.
  pose proof (Z_div_mod_eq_full (now - date) 60000) as Hdiv.
  pose proof (Z.mod_pos_bound (now - date) 60000 eq_refl) as Hmod.
  repeat split; intros Hage;
    repeat (match goal with
            | |- context [?a <? ?b] => destruct (Z.ltb_spec a b)
            end); try done; exfalso; lia.
Qed.

Lemma formatTimestamp_cases_witness :
  formatTimestamp (λ _, None) (λ _, "Nov 14, 2023") 1700000000000
    (ArgTimestamp (mkTimestamp 1699999000 0))
  = "16 minutes ago"
  ∧ formatTimestamp (λ _, None) (λ _, "Nov 14, 2023") 1700000000000
      (ArgNumber 1699996400000)
    = "1 hour ago"
  ∧ formatTimestamp (λ _, None) (λ _, "Nov 14, 2023") 1700000000000
      (ArgString "soon")
    = "Unknown time".
Proof.
  split; [|split].
  - destruct (formatTimestamp_cases (λ _, None) (λ _, "Nov 14, 2023")
                1700000000000 (ArgTimestamp (mkTimestamp 1699999000 0)))
      as (_ & _ & _ & Hdate).
    destruct (Hdate 1699999000000 eq_refl eq_refl) as (_ & Hmin & _).
    rewrite Hmin; [reflexivity|lia].
  - destruct (formatTimestamp_cases (λ _, None) (λ _, "Nov 14, 2023")
                1700000000000 (ArgNumber 1699996400000))
      as (_ & _ & _ & Hdate).
    destruct (Hdate 1699996400000 eq_refl eq_refl) as (_ & _ & Hhour & _).
    rewrite Hhour; [reflexivity|lia].
  - destruct (formatTimestamp_cases (λ _, None) (λ _, "Nov 14, 2023")
                1700000000000 (ArgString "soon"))
      as (_ & _ & Hunknown & _).
    apply Hunknown; reflexivity.
Defined.

(** C10 as stated fails on falsy arguments that are not missing values:
    the empty string and [NaN] give no valid date, and the number 0 is a
    date decades before [now], yet all three yield "Just now". *)
Lemma formatTimestamp_falsy_is_just_now :
  let fmt := formatTimestamp (λ _, None) (λ _, "Jan 1, 1970") 1700000000000 in
  dateOf (λ _, None) (ArgString "") = None
  ∧ fmt (ArgString "") = "Just now" ∧ fmt (ArgString "") ≠ "Unknown time"
  ∧ dateOf (λ _, None) ArgNaN = None
  ∧ fmt ArgNaN = "Just now" ∧ fmt ArgNaN ≠ "Unknown time"
  ∧ dateOf (λ _, None) (ArgNumber 0) = Some 0
  ∧ 86400000 ≤ 1700000000000 - 0
  ∧ fmt (ArgNumber 0) = "Just now" ∧ fmt (ArgNumber 0) ≠ "Jan 1, 1970".
Proof.
  simpl. repeat split; done.
Qed.

(** ** The formatted text, read back *)

Lemma takeWhile_dropWhile (f : ascii → bool) (s : string) :
  String.append (takeWhile f s) (dropWhile f s) = s.
Proof.
  induction s as [|c s IH]; [done|]. simpl.
  destruct (f c); [|done].
  change (String c (String.append (takeWhile f s) (dropWhile f s)) = String c s).
  by rewrite IH.
Qed.

Lemma takeWhile_allChars (f : ascii → bool) (s : string) :
  allChars f (takeWhile f s) = true.
Proof.
  induction s as [|c s IH]; [done|]. simpl.
  destruct (f c) eqn:Hc; [|done]. simpl. by rewrite Hc.
Qed.

Lemma isAlnum_not_isAt (c : ascii) : isAlnum c = true → isAt c = false.
Proof.
  unfold isAlnum, isAt. intros H.
  apply Nat.eqb_neq. intros Heq. rewrite Heq in H. discriminate H.
Qed.

Lemma takeWhile_empty_startsAlnum (s : string) :
  takeWhile isAlnum s = EmptyString → startsAlnum s = false.
Proof. destruct s as [|c s]; [done|]. simpl. by destruct (isAlnum c). Qed.

Lemma takeWhile_cons_startsAlnum (s : string) (a : ascii) (name : string) :
  takeWhile isAlnum s = String a name → startsAlnum s = true.
Proof. destruct s as [|c s]; [done|]. simpl. by destruct (isAlnum c). Qed.

Lemma string_app_assoc (a b c : string) :
  String.append (String.append a b) c = String.append a (String.append b c).
Proof.
  induction a as [|x a IH]; [done|].
  change (String x (String.append (String.append a b) c)
          = String x (String.append a (String.append b c))).
  by rewrite IH.
Qed.

Lemma string_app_length (a b : string) :
  String.length (String.append a b) = (String.length a + String.length b)%nat.
Proof.
  induction a as [|x a IH]; [done|].
  change (S (String.length (String.append a b))
          = S (String.length a + String.length b)). by rewrite IH.
Qed.

Lemma dropStrayAts_noAt (a b : string) :
  allChars (λ x, negb (isAt x)) a = true →
  dropStrayAts (String.append a b) = String.append a (dropStrayAts b).
Proof.
  induction a as [|x a IH]; [done|]. simpl.
  intros [Hx Ha]%andb_true_iff. apply negb_true_iff in Hx.
  change (dropStrayAts (String x (String.append a b))
          = String x (String.append a (dropStrayAts b))).
  simpl. rewrite Hx. simpl. by rewrite IH.
Qed.

Lemma allChars_impl (f g : ascii → bool) (s : string) :
  (∀ c, f c = true → g c = true) → allChars f s = true → allChars g s = true.
Proof.
  intros Hfg. induction s as [|c s IH]; [done|]. simpl.
  intros [Hc Hs]%andb_true_iff. by rewrite (Hfg c Hc), IH.
Qed.

Lemma dropStrayAts_alnum (a b : string) :
  allChars isAlnum a = true →
  dropStrayAts (String.append a b) = String.append a (dropStrayAts b).
Proof.
  intros Ha. apply dropStrayAts_noAt.
  apply (allChars_impl isAlnum); [|done].
  intros c Hc. by rewrite (isAlnum_not_isAt c Hc).
Qed.

(** What one [exec] does to the text in front of it. *)
Lemma exec_Some (s : string) (idx : nat) (m : RegExpMatch) (rest : string)
    (idx' : nat) :
  exec s idx = Some (m, rest, idx') →
  ∃ skipped,
    s = String.append skipped (String.append (m_0 m) rest)
    ∧ m_index m = (idx + String.length skipped)%nat
    ∧ idx' = (m_index m + String.length (m_0 m))%nat
    ∧ isToken m
    ∧ dropStrayAts s = String.append (m_0 m) (dropStrayAts rest).
Proof.
  revert idx. induction s as [|c s IH]; intros idx; simpl; [done|].
  destruct (isAt c) eqn:Hc.
  - destruct (takeWhile isAlnum s) as [|a name] eqn:Hname.
    + intros Hex. apply takeWhile_empty_startsAlnum in Hname as ->. simpl.
      destruct (IH _ Hex) as (skipped & Hs & Hi & Hi' & Htok & Hdrop).
      exists (String c skipped). repeat split; try done.
      * by rewrite Hs at 1.
      * simpl. lia.
    + intros [= <- <- <-]. simpl.
      pose proof (takeWhile_allChars isAlnum s) as Hall.
      pose proof (takeWhile_dropWhile isAlnum s) as Hsplit.
      rewrite Hname in Hall, Hsplit.
      apply takeWhile_cons_startsAlnum in Hname as ->. simpl.
      apply isAt_true in Hc as ->.
      exists EmptyString. repeat split.
      * by rewrite <- Hsplit at 1.
      * simpl. lia.
      * simpl. lia.
      * left. by exists (String a name).
      * rewrite <- Hsplit at 1. by rewrite dropStrayAts_alnum.
  - intros [= <- <- <-]. simpl.
    pose proof (takeWhile_allChars (λ x, negb (isAt x)) s) as Hall.
    pose proof (takeWhile_dropWhile (λ x, negb (isAt x)) s) as Hsplit.
    exists EmptyString. repeat split.
    + by rewrite <- Hsplit at 1.
    + simpl. lia.
    + right. eexists. repeat split; try done. simpl. by rewrite Hc.
    + rewrite <- Hsplit at 1. by rewrite dropStrayAts_noAt.
Qed.

Lemma exec_None (s : string) (idx : nat) :
  exec s idx = None → dropStrayAts s = EmptyString.
Proof.
  revert idx. induction s as [|c s IH]; intros idx; simpl; [done|].
  destruct (isAt c); [|done].
  destruct (takeWhile isAlnum s) as [|a name] eqn:Hname; [|done].
  apply takeWhile_empty_startsAlnum in Hname as ->. simpl. apply IH.
Qed.

Lemma pushFor_token (allUsers : list string) (m : RegExpMatch) :
  isToken m →
  ∃ style, pushFor allUsers m = [mkSpan (m_index m) style (m_0 m)]
           ∧ (style = None ↔ m_2 m = None).
Proof.
  intros [(name & H2 & H3 & H0 & Hn & Hall)|(seg & H2 & H3 & H0 & Hn & Hall)];
    unfold pushFor; rewrite H2.
  - rewrite Hn. eexists. split; [done|]. split; done.
  - rewrite H3, Hn. eexists. split; [done|]. split; done.
Qed.

Lemma textOf_app (parts1 parts2 : list Span) :
  textOf (parts1 ++ parts2) = String.append (textOf parts1) (textOf parts2).
Proof.
  induction parts1 as [|p parts1 IH]; [done|]. simpl.
  by rewrite IH, string_app_assoc.
Qed.

Lemma string_app_nil_r (a : string) : String.append a EmptyString = a.
Proof.
  induction a as [|x a IH]; [done|].
  change (String x (String.append a EmptyString) = String x a). by rewrite IH.
Qed.

Lemma execLoop_textOf (allUsers : list string) (fuel : nat) :
  ∀ (s : string) (idx : nat) (parts : list Span),
    (String.length s ≤ fuel)%nat →
    textOf (execLoop fuel allUsers s idx parts)
    = String.append (textOf parts) (dropStrayAts s).
Proof.
  induction fuel as [|fuel IH]; intros s idx parts Hlen.
  { destruct s; [|simpl in Hlen; lia]. simpl. by rewrite string_app_nil_r. }
  simpl. destruct (exec s idx) as [[[m rest] idx']|] eqn:E.
  - pose proof (exec_shorter _ _ _ _ _ E) as Hshort.
    destruct (exec_Some _ _ _ _ _ E) as (_ & _ & _ & _ & Htok & Hdrop).
    destruct (pushFor_token allUsers m Htok) as (style & -> & _).
    rewrite IH by lia. rewrite textOf_app, Hdrop. simpl.
    by rewrite string_app_nil_r, string_app_assoc.
  - apply exec_None in E as ->. by rewrite string_app_nil_r.
Qed.

(** X1.  The elements of a formatted text, read one after the other, give
    the text back except for the [@]s that no letter or digit follows:
    those are left out of the display.  A text in which every [@] starts a
    mention is given back whole. *)
Theorem formatTextContent_text (text : string) (allUsers : list string)
    (parts : list Span) :
  formatTextContent (Some text) allUsers = Some parts →
  textOf parts = dropStrayAts text
  ∧ (dropStrayAts text = text → textOf parts = text).
Proof.
  unfold formatTextContent. destruct (truthy text); [|done].
  intros [= <-].
  assert (H : textOf (execLoop (String.length text) allUsers text 0 [])
              = dropStrayAts text).
  { by rewrite execLoop_textOf. }
  split; [exact H|]. intros Heq. by rewrite H.
Qed.

Lemma formatTextContent_text_witness :
  textOf [mkSpan 0 None "mail me ";
          mkSpan 9 None " home, ";
          mkSpan 16 (Some "text-gray-400") "@bob"]
  = "mail me  home, @bob".
Proof.
  apply (formatTextContent_text "mail me @ home, @bob" ["carol"]).
  reflexivity.
Defined.

Lemma execLoop_tokens (allUsers : list string) (fuel : nat) :
  ∀ (s : string) (idx : nat) (parts : list Span) (part : Span),
    part ∈ execLoop fuel allUsers s idx parts →
    part ∈ parts ∨ ∃ m, isToken m ∧ part ∈ pushFor allUsers m.
Proof.
  induction fuel as [|fuel IH]; intros s idx parts part; simpl; [by left|].
  destruct (exec s idx) as [[[m rest] idx']|] eqn:E; [|by left].
  intros Hin. apply IH in Hin as [Hin|Hin]; [|by right].
  apply elem_of_app in Hin as [Hin|Hin]; [by left|].
  right. exists m. split; [|done].
  by destruct (exec_Some _ _ _ _ _ E) as (_ & _ & _ & _ & Htok & _).
Qed.

(** X2.  Every element of a formatted text is of one of two kinds.  A plain
    element carries no class, is not empty and contains no [@]; a mention
    element is [@] followed by a non-empty name made of letters and digits
    only, and carries one of the two mention styles.  No element is empty
    and no other class is ever given. *)
Theorem formatTextContent_elements (text : string) (allUsers : list string)
    (parts : list Span) (part : Span) :
  formatTextContent (Some text) allUsers = Some parts → part ∈ parts →
  (className part = None
   ∧ truthy (children part) = true
   ∧ allChars (λ x, negb (isAt x)) (children part) = true)
  ∨ (∃ name,
        children part = String "@"%char name
        ∧ truthy name = true ∧ allChars isAlnum name = true
        ∧ className part
          = Some (if isKnownUser allUsers name
                  then "text-blue-500 font-semibold" else "text-gray-400")).
Proof.
  unfold formatTextContent. destruct (truthy text); [|done].
  intros [= <-] Hin.
  apply execLoop_tokens in Hin as [Hin|(m & Hm & Hin)].
  { by apply elem_of_nil in Hin. }
  destruct Hm as [(name & H2 & H3 & H0 & Hn & Hall)
                 |(seg & H2 & H3 & H0 & Hn & Hall)];
    unfold pushFor in Hin; rewrite H2 in Hin.
  - rewrite Hn in Hin. apply list_elem_of_singleton in Hin as ->.
    right. exists name. simpl. by rewrite H0.
  - rewrite H3, Hn in Hin. apply list_elem_of_singleton in Hin as ->.
    left. simpl. by rewrite H0.
Qed.

Lemma formatTextContent_elements_witness :
  ∃ name, "@bob" = String "@"%char name ∧ allChars isAlnum name = true.
Proof.
  destruct (formatTextContent_elements "hi @bob" ["bobby"]
              [mkSpan 0 None "hi ";
               mkSpan 3 (Some "text-blue-500 font-semibold") "@bob"]
              (mkSpan 3 (Some "text-blue-500 font-semibold") "@bob")
              eq_refl)
    as [(Hcls & _)|(name & Hch & _ & Hall & _)].
  - apply elem_of_cons. right. apply elem_of_cons. by left.
  - discriminate Hcls.
  - by exists name.
Defined.

Lemma string_app_cons (x : ascii) (a b : string) :
  String.append (String x a) b = String x (String.append a b).
Proof. reflexivity. Qed.

Lemma string_app_nil_l (a : string) : String.append EmptyString a = a.
Proof. reflexivity. Qed.

Lemma substring_prefix (b c : string) :
  substring 0 (String.length b) (String.append b c) = b.
Proof.
  induction b as [|x b IH].
  - rewrite string_app_nil_l. by destruct c.
  - rewrite string_app_cons. simpl. by rewrite IH.
Qed.

Lemma substring_middle (a b c : string) :
  substring (String.length a) (String.length b)
    (String.append a (String.append b c)) = b.
Proof.
  induction a as [|x a IH].
  - rewrite string_app_nil_l. apply substring_prefix.
  - rewrite string_app_cons. exact IH.
Qed.

Lemma token_length (m : RegExpMatch) :
  isToken m → (0 < String.length (m_0 m))%nat.
Proof.
  intros [(name & _ & _ & -> & _)|(seg & _ & _ & -> & Hn & _)]; simpl; [lia|].
  destruct seg; [done|simpl; lia].
Qed.

Lemma execLoop_positions (allUsers : list string) (fuel : nat) :
  ∀ (pre s : string) (idx : nat) (parts : list Span) (part : Span),
    idx = String.length pre →
    part ∈ execLoop fuel allUsers s idx parts →
    part ∈ parts
    ∨ substring (key part) (String.length (children part))
        (String.append pre s) = children part.
Proof.
  induction fuel as [|fuel IH]; intros pre s idx parts part Hidx; simpl;
    [by left|].
  destruct (exec s idx) as [[[m rest] idx']|] eqn:E; [|by left].
  destruct (exec_Some _ _ _ _ _ E) as (skipped & Hs & Hi & Hi' & Htok & _).
  intros Hin.
  apply (IH (String.append (String.append pre skipped) (m_0 m))) in Hin.
  - rewrite Hs.
    rewrite !string_app_assoc in Hin.
    destruct Hin as [Hin|Hin]; [|by right].
    apply elem_of_app in Hin as [Hin|Hin]; [by left|]. right.
    destruct (pushFor_token allUsers m Htok) as (style & Hpush & _).
    rewrite Hpush in Hin. apply list_elem_of_singleton in Hin as ->. simpl.
    rewrite Hi, Hidx, <- string_app_length, <- string_app_assoc.
    apply substring_middle.
  - rewrite !string_app_length. lia.
Qed.

Lemma execLoop_keys (allUsers : list string) (fuel : nat) :
  ∀ (s : string) (idx : nat) (parts : list Span),
    Forall (λ p, (key p < idx)%nat) parts →
    StronglySorted lt (key <$> parts) →
    StronglySorted lt (key <$> execLoop fuel allUsers s idx parts).
Proof.
  induction fuel as [|fuel IH]; intros s idx parts Hlt Hsorted; simpl;
    [done|].
  destruct (exec s idx) as [[[m rest] idx']|] eqn:E; [|done].
  destruct (exec_Some _ _ _ _ _ E) as (skipped & _ & Hi & Hi' & Htok & _).
  pose proof (token_length m Htok) as Hpos.
  destruct (pushFor_token allUsers m Htok) as (style & Hpush & _).
  rewrite Hpush. apply IH.
  - apply Forall_app. split.
    + eapply Forall_impl; [exact Hlt|]. simpl. intros p Hp. lia.
    + apply Forall_singleton. simpl. lia.
  - rewrite fmap_app. apply StronglySorted_app_2; [|done|].
    + intros k1 k2 Hk1 Hk2. simpl in Hk2.
      apply list_elem_of_singleton in Hk2 as ->.
      apply list_elem_of_fmap in Hk1 as (p & -> & Hp).
      rewrite Forall_forall in Hlt. specialize (Hlt p Hp). simpl in Hlt. lia.
    + simpl. repeat constructor.
Qed.

(** X3.  The key of every element of a formatted text is the position in
    the text at which the element's own text stands, and the keys grow
    strictly along the list, so no two elements share a key. *)
Theorem formatTextContent_keys (text : string) (allUsers : list string)
    (parts : list Span) :
  formatTextContent (Some text) allUsers = Some parts →
  StronglySorted lt (key <$> parts)
  ∧ NoDup (key <$> parts)
  ∧ ∀ part, part ∈ parts →
      substring (key part) (String.length (children part)) text
      = children part.
Proof.
  unfold formatTextContent. destruct (truthy text); [|done].
  intros [= <-].
  assert (Hs : StronglySorted lt
                 (key <$> execLoop (String.length text) allUsers text 0 [])).
  { apply execLoop_keys; [constructor|constructor]. }
  split; [exact Hs|]. split.
  - clear -Hs. induction Hs as [|k ks Hs IH Hall]; [constructor|].
    constructor; [|exact IH].
    intros Hin. rewrite Forall_forall in Hall.
    specialize (Hall k Hin). lia.
  - intros part Hin.
    apply (execLoop_positions allUsers _ EmptyString) in Hin; [|done].
    destruct Hin as [Hin|Hin]; [by apply elem_of_nil in Hin|done].
Qed.

Lemma formatTextContent_keys_witness :
  substring 16 4 "mail me @ home, @bob" = "@bob".
Proof.
  destruct (formatTextContent_keys "mail me @ home, @bob" ["carol"]
              [mkSpan 0 None "mail me ";
               mkSpan 9 None " home, ";
               mkSpan 16 (Some "text-gray-400") "@bob"] eq_refl)
    as (_ & _ & Hsub).
  apply (Hsub (mkSpan 16 (Some "text-gray-400") "@bob")).
  do 2 (apply elem_of_cons; right). apply elem_of_cons. by left.
Defined.

(** X4.  The matching loop of [formatTextContent] ends by itself after at
    most one round per character of the text: with any larger bound on the
    number of rounds the result is the same. *)
Theorem formatTextContent_loop_bound (text : string) (allUsers : list string)
    (fuel : nat) :
  truthy text = true → (String.length text ≤ fuel)%nat →
  formatTextContent (Some text) allUsers
  = Some (execLoop fuel allUsers text 0 []).
Proof.
  intros Ht Hfuel. unfold formatTextContent. rewrite Ht.
  by rewrite (execLoop_fuel_enough allUsers fuel).
Qed.

Lemma formatTextContent_loop_bound_witness :
  formatTextContent (Some "hi @bob") ["bobby"]
  = Some (execLoop 100 ["bobby"] "hi @bob" 0 []).
Proof.
  apply (formatTextContent_loop_bound "hi @bob" ["bobby"] 100).
  - reflexivity.
  - simpl. lia.
Defined.

(** ** The handlers without a signed-in user *)

(** X5.  Without a database handle or without a signed-in user (no user id
    or an empty one) none of the three handlers does anything: the
    collection, the form and the console are left as they were, whatever the
    rest of the input is. *)
Theorem handlers_need_sign_in (db : option Firestore) (userId : option string)
    (post : Post) (newId : string) (now : Timestamp)
    (ui : PostItemState) (form : NewPostState)
    (console : list string) (st : Store) :
  signedOut db userId →
  handleLike db userId post ui console st
  = mkOutcome st ui console JsUndefined
  ∧ handleAddComment db userId post now ui console st
    = mkOutcome st ui console JsUndefined
  ∧ handleSubmit db userId newId now form console st
    = mkOutcome st form console JsUndefined.
Proof.
  unfold handleLike, handleAddComment, handleSubmit.
  intros [->|[->| ->]].
  - done.
  - by destruct db.
  - destruct db; [|done]. simpl. by rewrite andb_false_r.
Qed.

Lemma handlers_need_sign_in_witness :
  handleSubmit (Some FirestoreHandle) None "p2" (mkTimestamp 1700000100 0)
    (mkNewPostState "Saw an otter" false) [] heronStore
  = mkOutcome heronStore (mkNewPostState "Saw an otter" false) [] JsUndefined.
Proof.
  apply (handlers_need_sign_in (Some FirestoreHandle) None
           (mkPost "p1" heronPost) "p2" (mkTimestamp 1700000100 0)
           (mkPostItemState false "") (mkNewPostState "Saw an otter" false)
           [] heronStore).
  right. left. reflexivity.
Defined.

(** ** More on likes *)

Lemma filter_remove_length (uid : string) (l : list string) :
  NoDup l → uid ∈ l →
  (length (filter (λ id, id ≠ uid) l) + 1 = length l)%nat.
Proof.
  induction l as [|x l IH]; intros Hnd Hin.
  { by apply elem_of_nil in Hin. }
  apply NoDup_cons in Hnd as [Hx Hnd]. rewrite filter_cons.
  destruct (decide (x ≠ uid)) as [Hne|Heq].
  - apply elem_of_cons in Hin as [->|Hin]; [done|].
    simpl. rewrite <- (IH Hnd Hin). lia.
  - apply dec_stable in Heq. subst x. simpl.
    assert (filter (λ id, id ≠ uid) l = l) as ->; [|lia].
    clear -Hx. induction l as [|y l IH]; [done|].
    apply not_elem_of_cons in Hx as [Hne Hx].
    rewrite filter_cons_True by done. by rewrite IH.
Qed.

(** X6.  On a post whose like list holds no identity twice, a like click of
    a signed-in user keeps it that way and changes the number of likes by
    exactly one: one more when the user had not liked the post, one less
    when the user had.  Whether any other identity is in the list does not
    change. *)
Theorem handleLike_counts (st : Store) (postId uid : string) (d : PostData)
    (ui : PostItemState) (console : list string) :
  st !! postId = Some d → truthy uid = true →
  NoDup (default [] (p_likes d)) →
  ∃ likes',
    p_likes
      <$> o_store (handleLike (Some FirestoreHandle) (Some uid)
                     (mkPost postId d) ui console st) !! postId
    = Some (Some likes')
    ∧ NoDup likes'
    ∧ (uid ∉ default [] (p_likes d) →
       length likes' = S (length (default [] (p_likes d))))
    ∧ (uid ∈ default [] (p_likes d) →
       S (length likes') = length (default [] (p_likes d)))
    ∧ (∀ other, other ≠ uid →
         other ∈ likes' ↔ other ∈ default [] (p_likes d)).
Proof.
  intros Hd Hu Hnd.
  rewrite (handleLike_store st postId uid d ui console Hd Hu). simpl.
  rewrite lookup_insert_eq. simpl.
  exists (newLikes uid (mkPost postId d)). split; [done|].
  destruct (decide (uid ∈ default [] (p_likes d))) as [Hin|Hout].
  - destruct (newLikes_member uid (mkPost postId d) Hin) as [-> _]. simpl.
    split; [by apply NoDup_filter|]. split; [done|]. split.
    + intros _. pose proof (filter_remove_length uid _ Hnd Hin). lia.
    + intros other Hne. rewrite list_elem_of_filter. tauto.
  - destruct (newLikes_nonmember uid (mkPost postId d) Hout) as [-> _]. simpl.
    split; [|split; [|split]].
    + apply NoDup_app. split; [done|]. split; [|apply NoDup_singleton].
      intros x Hx Hx'. apply list_elem_of_singleton in Hx'. by subst.
    + intros _. rewrite length_app. simpl. lia.
    + done.
    + intros other Hne. rewrite elem_of_app, list_elem_of_singleton. tauto.
Qed.

Lemma handleLike_counts_witness :
  ∃ likes',
    p_likes
      <$> o_store (handleLike (Some FirestoreHandle) (Some "bob")
                     (mkPost "p1" heronPost) (mkPostItemState false "") []
                     heronStore) !! "p1"
    = Some (Some likes')
    ∧ length likes' = 1%nat.
Proof.
  destruct (handleLike_counts heronStore "p1" "bob" heronPost
              (mkPostItemState false "") [] eq_refl eq_refl)
    as (likes' & Hl & _ & Hadd & _).
  { simpl. constructor. }
  exists likes'. split; [exact Hl|].
  apply Hadd. simpl. intros Hin. by apply elem_of_nil in Hin.
Defined.

(** X7.  A like click on a post that is no longer in the collection leaves
    the collection and the component as they were; the failure is written
    to the console and nothing is returned. *)
Theorem handleLike_unknown_post (uid : string) (post : Post)
    (ui : PostItemState) (console : list string) (st : Store) :
  st !! post_id post = None → truthy uid = true →
  handleLike (Some FirestoreHandle) (Some uid) post ui console st
  = mkOutcome st ui (console ++ ["Error updating likes:"]) JsUndefined.
Proof.
  intros Hd Hu. unfold handleLike, updateDoc. by rewrite Hu, Hd.
Qed.

Lemma handleLike_unknown_post_witness :
  handleLike (Some FirestoreHandle) (Some "bob") (mkPost "p9" heronPost)
    (mkPostItemState false "") [] heronStore
  = mkOutcome heronStore (mkPostItemState false "")
      ["Error updating likes:"] JsUndefined.
Proof.
  apply (handleLike_unknown_post "bob" (mkPost "p9" heronPost)
           (mkPostItemState false "") [] heronStore); reflexivity.
Defined.

(** X8.  [handleLike] writes the like list it computes from the post it was
    rendered with, whatever the collection holds by then: a like that
    another user stored after the post was rendered is not in the list
    written and is lost. *)
Theorem handleLike_writes_rendered_likes (st : Store) (post : Post)
    (uid : string) (d : PostData) (ui : PostItemState)
    (console : list string) :
  st !! post_id post = Some d → truthy uid = true →
  let r := handleLike (Some FirestoreHandle) (Some uid) post ui console st in
  p_likes <$> o_store r !! post_id post = Some (Some (newLikes uid post))
  ∧ ∀ other, other ≠ uid →
      other ∉ default [] (p_likes (post_doc post)) →
      ∀ likes', p_likes <$> o_store r !! post_id post = Some (Some likes') →
                other ∉ likes'.
Proof.
  intros Hd Hu r. subst r. unfold handleLike, updateDoc. rewrite Hu, Hd.
  simpl. rewrite lookup_insert_eq. simpl. split; [done|].
  intros other Hne Hout likes' [= <-]. unfold newLikes.
  destruct (includes uid (default [] (p_likes (post_doc post)))).
  - rewrite list_elem_of_filter. tauto.
  - rewrite elem_of_app, list_elem_of_singleton. tauto.
Qed.

Lemma handleLike_writes_rendered_likes_witness :
  p_likes
    <$> o_store (handleLike (Some FirestoreHandle) (Some "bob")
                   (mkPost "p1" heronPost) (mkPostItemState false "") []
                   (<["p1" := applyUpdate (UpdLikes ["alice"]) heronPost]>
                      heronStore)) !! "p1"
  = Some (Some ["bob"]).
Proof.
  apply (handleLike_writes_rendered_likes
           (<["p1" := applyUpdate (UpdLikes ["alice"]) heronPost]> heronStore)
           (mkPost "p1" heronPost) "bob"
           (applyUpdate (UpdLikes ["alice"]) heronPost)
           (mkPostItemState false "") []); reflexivity.
Defined.

(** ** More on comments *)

(** X9.  A comment that is sent never reaches the collection.  Whatever
    post the form was rendered with and whoever is signed in,
    [handleAddComment] leaves the collection and the form, text and
    expansion, as they were and returns nothing.  For a signed-in user with
    a text that is not blank the update is refused, the failure is caught
    and one line is written to the console; with a blank text or without a
    signed-in user nothing is written there either. *)
Theorem handleAddComment_never_stores (db : option Firestore)
    (userId : option string) (post : Post) (now : Timestamp)
    (ui : PostItemState) (console : list string) (st : Store) :
  let r := handleAddComment db userId post now ui console st in
  o_store r = st ∧ o_ui r = ui ∧ o_returned r = JsUndefined
  ∧ (∀ handle uid,
        db = Some handle → userId = Some uid → truthy uid = true →
        truthy (trim (commentText ui)) = true →
        o_console r = console ++ ["Error adding comment:"])
  ∧ (truthy (trim (commentText ui)) = false ∨ signedOut db userId →
     o_console r = console).
Proof.
  intros r. subst r.
  destruct (handleAddComment_store_ui db userId post now ui console st)
    as [Hst Hui].
  split; [done|]. split; [done|]. split; [|split].
  - unfold handleAddComment, updateDoc_arrayUnion.
    destruct db, userId as [uid|]; try done.
    by destruct (truthy uid && truthy (trim (commentText ui))).
  - intros handle uid -> -> Hu Ht.
    by rewrite (handleAddComment_caught handle uid post now ui console st).
  - unfold handleAddComment, updateDoc_arrayUnion.
    intros [Ht|[->|[->| ->]]].
    + destruct db, userId as [uid|]; try done.
      by rewrite Ht, andb_false_r.
    + done.
    + by destruct db.
    + by destruct db.
Qed.

Lemma handleAddComment_never_stores_witness :
  o_console (handleAddComment (Some FirestoreHandle) (Some "carol")
               (mkPost "p1" heronPost) (mkTimestamp 1700000060 0)
               (mkPostItemState false " hi @bob ") [] heronStore)
  = ["Error adding comment:"].
Proof.
  destruct (handleAddComment_never_stores (Some FirestoreHandle)
              (Some "carol") (mkPost "p1" heronPost)
              (mkTimestamp 1700000060 0) (mkPostItemState false " hi @bob ")
              [] heronStore) as (_ & _ & _ & Hcaught & _).
  apply (Hcaught FirestoreHandle "carol"); reflexivity.
Defined.

Lemma sort_insert_head {A} (compareFn : A → A → Z) (x : A) (l : list A) :
  Forall (λ y, compareFn x y ≤ 0) l → sort_insert compareFn x l = x :: l.
Proof.
  destruct l as [|y l]; [done|]. intros Hall.
  apply Forall_cons in Hall as [Hy _]. simpl.
  by destruct (Z.leb_spec (compareFn x y) 0); [|lia].
Qed.

(** X10.  When the stored comments already stand in ascending order of
    their seconds, the displayed comments are the stored comments in the
    stored order; sorting what is displayed once more changes nothing. *)
Theorem displayedComments_of_sorted (post : Post) :
  (StronglySorted (λ a b, seconds (c_timestamp a) ≤ seconds (c_timestamp b))
     (default [] (p_comments (post_doc post))) →
   displayedComments post = default [] (p_comments (post_doc post)))
  ∧ Array_sort bySeconds (displayedComments post) = displayedComments post.
Proof.
  assert (Hfix : ∀ l,
            StronglySorted
              (λ a b, seconds (c_timestamp a) ≤ seconds (c_timestamp b)) l →
            Array_sort bySeconds l = l).
  { induction 1 as [|x l Hs IH Hall]; [done|]. simpl. rewrite IH.
    apply sort_insert_head. eapply Forall_impl; [exact Hall|].
    unfold bySeconds. simpl. intros y Hy. lia. }
  split; [apply Hfix|]. apply Hfix.
  apply (Array_sort_sorted (λ c, seconds (c_timestamp c))).
Qed.

Lemma displayedComments_of_sorted_witness :
  displayedComments
    (mkPost "p1" (applyUpdate (UpdCommentsUnion carolComment) heronPost))
  = [carolComment].
Proof.
  apply (proj1 (displayedComments_of_sorted
                  (mkPost "p1" (applyUpdate (UpdCommentsUnion carolComment)
                                  heronPost)))).
  repeat constructor.
Defined.

(** X11.  Expanded, a post shows all its comments in display order.
    Collapsed, it shows the last two of them (all, when there are at most
    two): the comments left out come first in display order and none of them
    is later, in seconds, than a comment shown.  The "View all" button is
    offered exactly when the post is collapsed and has more than two
    comments. *)
Theorem visibleComments_latest (post : Post) :
  visibleComments true post = displayedComments post
  ∧ (∃ hidden,
        displayedComments post = hidden ++ visibleComments false post
        ∧ length (visibleComments false post)
          = Nat.min 2 (length (default [] (p_comments (post_doc post))))
        ∧ ∀ h v, h ∈ hidden → v ∈ visibleComments false post →
                 seconds (c_timestamp h) ≤ seconds (c_timestamp v))
  ∧ (∀ expanded,
        showViewAll expanded post = true
        ↔ expanded = false
          ∧ (2 < length (default [] (p_comments (post_doc post))))%nat).
Proof.
  assert (Hlen : length (displayedComments post)
                 = length (default [] (p_comments (post_doc post)))).
  { unfold displayedComments, bySeconds.
    by rewrite (Array_sort_Permutation (λ c, seconds (c_timestamp c))). }
  assert (Hvis : length (visibleComments false post)
                 = Nat.min 2 (length (default [] (p_comments (post_doc post))))).
  { unfold visibleComments, slice_last2. rewrite length_drop, Hlen. lia. }
  split; [done|]. split.
  - exists (take (length (displayedComments post) - 2) (displayedComments post)).
    split; [|split; [exact Hvis|]].
    + unfold visibleComments, slice_last2. by rewrite take_drop.
    + intros h v Hh Hv. unfold visibleComments, slice_last2 in Hv.
      assert (Hs : StronglySorted
                     (λ a b, seconds (c_timestamp a) ≤ seconds (c_timestamp b))
                     (displayedComments post)).
      { unfold displayedComments, bySeconds.
        apply (Array_sort_sorted (λ c, seconds (c_timestamp c))). }
      rewrite <- (take_drop (length (displayedComments post) - 2)
                    (displayedComments post)) in Hs.
      exact (StronglySorted_app_1_elem_of _ _ _ _ _ Hs Hh Hv).
  - intros expanded. unfold showViewAll.
    destruct expanded.
    + change (negb true) with false. rewrite andb_false_l.
      split; [done|]. by intros [? _].
    + change (negb false) with true. rewrite andb_true_l.
      rewrite Nat.ltb_lt, Hvis, Hlen. split; [|intros [_ ?]]; lia.
Qed.

Lemma visibleComments_latest_witness :
  showViewAll false
    (mkPost "p1" (applyUpdate (UpdCommentsUnion carolComment) heronPost))
  = false.
Proof.
  destruct (visibleComments_latest
              (mkPost "p1" (applyUpdate (UpdCommentsUnion carolComment)
                              heronPost))) as (_ & _ & Hbutton).
  destruct (showViewAll false
              (mkPost "p1" (applyUpdate (UpdCommentsUnion carolComment)
                              heronPost))) eqn:E; [|reflexivity].
  apply Hbutton in E as [_ Hlen]. simpl in Hlen. lia.
Defined.

(** ** The known user ids *)

Lemma elem_of_setAdd (u x : string) (ids : list string) :
  u ∈ setAdd x ids ↔ u = x ∨ u ∈ ids.
Proof.
  unfold setAdd. case_bool_decide as Hx.
  - split; [by right|]. by intros [->|?].
  - rewrite elem_of_app, list_elem_of_singleton. tauto.
Qed.

Lemma setAdd_NoDup (x : string) (ids : list string) :
  NoDup ids → NoDup (setAdd x ids).
Proof.
  intros Hnd. unfold setAdd. case_bool_decide as Hx; [done|].
  apply NoDup_app. split; [done|]. split; [|apply NoDup_singleton].
  intros y Hy Hy'. apply list_elem_of_singleton in Hy'. by subst.
Qed.

Lemma truthy_true (s : string) : truthy s = true ↔ s ≠ "".
Proof. destruct s; simpl; split; done. Qed.

Lemma collectComments_spec (comments : list Comment) (ids : list string) :
  let collect :=
    fold_left
      (λ acc comment,
         if truthy (c_userId comment) then setAdd (c_userId comment) acc
         else acc) comments ids in
  (NoDup ids → NoDup collect)
  ∧ ∀ u, u ∈ collect
         ↔ u ∈ ids
           ∨ (truthy u = true
              ∧ ∃ comment, comment ∈ comments ∧ c_userId comment = u).
Proof.
  revert ids. induction comments as [|c comments IH]; intros ids; simpl.
  - split; [done|]. intros u. split; [by left|].
    intros [?|(_ & c & Hc & _)]; [done|]. by apply elem_of_nil in Hc.
  - destruct (IH (if truthy (c_userId c) then setAdd (c_userId c) ids
                  else ids)) as [Hnd Hin].
    split.
    + intros Hids. apply Hnd. destruct (truthy (c_userId c)); [|done].
      by apply setAdd_NoDup.
    + intros u. rewrite Hin. destruct (truthy (c_userId c)) eqn:Hc.
      * rewrite elem_of_setAdd. split.
        -- intros [[->|?]|(Hu & c' & Hc' & Heq)].
           ++ right. split; [done|]. exists c. split; [by left|done].
           ++ by left.
           ++ right. split; [done|]. exists c'. split; [by right|done].
        -- intros [?|(Hu & c' & Hc' & Heq)]; [by left; right|].
           apply elem_of_cons in Hc' as [->|Hc'].
           ++ left. left. done.
           ++ right. split; [done|]. by exists c'.
      * split.
        -- intros [?|(Hu & c' & Hc' & Heq)]; [by left|].
           right. split; [done|]. exists c'. split; [by right|done].
        -- intros [?|(Hu & c' & Hc' & Heq)]; [by left|].
           apply elem_of_cons in Hc' as [->|Hc'].
           ++ congruence.
           ++ right. split; [done|]. by exists c'.
Qed.

Lemma collectPost_spec (ids : list string) (post : Post) :
  (NoDup ids → NoDup (collectPost ids post))
  ∧ ∀ u, u ∈ collectPost ids post
         ↔ u ∈ ids ∨ (truthy u = true ∧ namedIn u post).
Proof.
  unfold collectPost, namedIn.
  destruct (collectComments_spec (default [] (p_comments (post_doc post)))
              (if truthy (p_userId (post_doc post))
               then setAdd (p_userId (post_doc post)) ids else ids))
    as [Hnd Hin].
  split.
  - intros Hids. apply Hnd.
    destruct (truthy (p_userId (post_doc post))); [|done].
    by apply setAdd_NoDup.
  - intros u. rewrite Hin.
    destruct (truthy (p_userId (post_doc post))) eqn:Hp.
    + rewrite elem_of_setAdd. split.
      * intros [[->|?]|(Hu & Hc)]; [right|by left|right]; split; auto.
      * intros [?|(Hu & [Heq|Hc])]; [by left; right| |by right].
        left. left. done.
    + split.
      * intros [?|(Hu & Hc)]; [by left|right]. split; auto.
      * intros [?|(Hu & [Heq|Hc])]; [by left| |by right]. congruence.
Qed.

Lemma collectPosts_spec (feed : list Post) (ids : list string) :
  (NoDup ids → NoDup (fold_left collectPost feed ids))
  ∧ ∀ u, u ∈ fold_left collectPost feed ids
         ↔ u ∈ ids
           ∨ (truthy u = true ∧ ∃ post, post ∈ feed ∧ namedIn u post).
Proof.
  revert ids. induction feed as [|post feed IH]; intros ids; simpl.
  - split; [done|]. intros u. split; [by left|].
    intros [?|(_ & p & Hp & _)]; [done|]. by apply elem_of_nil in Hp.
  - destruct (IH (collectPost ids post)) as [Hnd Hin].
    destruct (collectPost_spec ids post) as [Hnd1 Hin1].
    split; [by auto|].
    intros u. rewrite Hin, Hin1. split.
    + intros [[?|(Hu & Hn)]|(Hu & p & Hp & Hn)].
      * by left.
      * right. split; [done|]. exists post. split; [by left|done].
      * right. split; [done|]. exists p. split; [by right|done].
    + intros [?|(Hu & p & Hp & Hn)]; [by left; left|].
      apply elem_of_cons in Hp as [->|Hp].
      * left. right. done.
      * right. split; [done|]. by exists p.
Qed.

(** X12.  From every event, [usePosts] keeps the posts in the order of the
    query result, one per document and under the document's id, and the
    list of known user ids without repetition: a user id is known exactly
    when it is not empty and is the author of a post of the feed or of one
    of the comments in it. *)
Theorem usePosts_known_ids (docs : list Doc) :
  post_id <$> posts (onPostsSnapshot docs) = docs.*1
  ∧ post_doc <$> posts (onPostsSnapshot docs) = docs.*2
  ∧ NoDup (allUserIds (onPostsSnapshot docs))
  ∧ ∀ u, u ∈ allUserIds (onPostsSnapshot docs)
         ↔ u ≠ ""
           ∧ ∃ post, post ∈ posts (onPostsSnapshot docs) ∧ namedIn u post.
Proof.
  unfold onPostsSnapshot. simpl.
  destruct (collectPosts_spec (map (λ doc : Doc, mkPost doc.1 doc.2) docs) [])
    as [Hnd Hin].
  split; [|split; [|split]].
  - clear. induction docs as [|doc docs IH]; [done|]. cbn. f_equal. exact IH.
  - clear. induction docs as [|doc docs IH]; [done|]. cbn. f_equal. exact IH.
  - apply Hnd. constructor.
  - intros u. rewrite Hin, truthy_true. split; [|by right].
    intros [Hu|?]; [|done]. by apply elem_of_nil in Hu.
Qed.

Lemma usePosts_known_ids_witness :
  "alice" ∈ allUserIds (onPostsSnapshot [("p1", heronPost)]).
Proof.
  destruct (usePosts_known_ids [("p1", heronPost)]) as (_ & _ & _ & Hin).
  apply Hin. split; [done|].
  exists (mkPost "p1" heronPost). split; [by left|]. by left.
Defined.

Lemma takeWhile_all (f : ascii → bool) (s : string) :
  allChars f s = true → takeWhile f s = s ∧ dropWhile f s = EmptyString.
Proof.
  induction s as [|c s IH]; [done|]. simpl.
  intros [Hc Hs]%andb_true_iff. rewrite Hc.
  destruct (IH Hs) as [-> ->]. done.
Qed.

Lemma formatTextContent_mention (name : string) (allUsers : list string) :
  truthy name = true → allChars isAlnum name = true →
  formatTextContent (Some (String "@"%char name)) allUsers
  = Some [mkSpan 0
            (Some (if isKnownUser allUsers name
                   then "text-blue-500 font-semibold" else "text-gray-400"))
            (String "@"%char name)].
Proof.
  intros Hn Hall. unfold formatTextContent.
  change (truthy (String "@"%char name)) with true. cbv iota.
  destruct (takeWhile_all isAlnum name Hall) as [Htake Hdrop].
  destruct name as [|a name]; [done|].
  cbn [String.length execLoop exec]. change (isAt "@"%char) with true.
  cbv iota. rewrite Htake, Hdrop. simpl. done.
Qed.

(** X13.  Whoever wrote a post of the feed, or a comment in it, can be
    mentioned by the first characters of the user id: a text that consists
    of [@] and a non-empty prefix of that id, made of letters and digits, is
    formatted as one highlighted mention, with the user ids [usePosts]
    collected from the same feed. *)
Theorem mention_of_feed_user (docs : list Doc) (post : Post) (u name : string) :
  post ∈ posts (onPostsSnapshot docs) → namedIn u post →
  truthy name = true → allChars isAlnum name = true →
  String.prefix name u = true →
  formatTextContent (Some (String "@"%char name))
    (allUserIds (onPostsSnapshot docs))
  = Some [mkSpan 0 (Some "text-blue-500 font-semibold")
            (String "@"%char name)].
Proof.
  intros Hpost Hnamed Hn Hall Hprefix.
  rewrite (formatTextContent_mention name _ Hn Hall).
  assert (isKnownUser (allUserIds (onPostsSnapshot docs)) name = true) as ->;
    [|done].
  apply isKnownUser_spec. exists u. split; [|done].
  unfold onPostsSnapshot in *. simpl in *.
  apply collectPosts_spec. right. split; [|by exists post].
  destruct u; [|done]. by destruct name.
Qed.

Lemma mention_of_feed_user_witness :
  formatTextContent (Some "@ali")
    (allUserIds (onPostsSnapshot [("p1", heronPost)]))
  = Some [mkSpan 0 (Some "text-blue-500 font-semibold") "@ali"].
Proof.
  apply (mention_of_feed_user [("p1", heronPost)] (mkPost "p1" heronPost)
           "alice" "ali"); try reflexivity.
  - by left.
  - by left.
Defined.

(** ** What the forms store *)

Lemma rev_app_append (s1 s2 : string) :
  String.rev_app s1 s2 = String.append (String.rev s1) s2.
Proof.
  unfold String.rev. revert s2.
  induction s1 as [|a s1 IH]; intros s2; [done|]. simpl.
  rewrite (IH (String a s2)), (IH (String a EmptyString)).
  by rewrite string_app_assoc.
Qed.

Lemma rev_cons (a : ascii) (s : string) :
  String.rev (String a s) = String.append (String.rev s) (String a EmptyString).
Proof. unfold String.rev at 1. simpl. apply rev_app_append. Qed.

Lemma rev_snoc (a : ascii) (s : string) :
  String.rev (String.append s (String a EmptyString)) = String a (String.rev s).
Proof.
  induction s as [|x s IH]; [done|].
  rewrite string_app_cons, !rev_cons, IH. by rewrite string_app_cons.
Qed.

Lemma rev_involutive (s : string) : String.rev (String.rev s) = s.
Proof.
  induction s as [|a s IH]; [done|]. by rewrite rev_cons, rev_snoc, IH.
Qed.

Lemma trimStart_startsClean (s : string) : startsClean (trimStart s) = true.
Proof.
  induction s as [|c s IH]; [done|]. simpl.
  destruct (isWhiteSpace c) eqn:Hc; [done|]. simpl. by rewrite Hc.
Qed.

Lemma trimStart_clean (s : string) : startsClean s = true → trimStart s = s.
Proof.
  destruct s as [|c s]; [done|]. simpl. intros Hc.
  apply negb_true_iff in Hc. by rewrite Hc.
Qed.

Lemma trimStart_snoc (s : string) (c : ascii) :
  isWhiteSpace c = false →
  ∃ u, trimStart (String.append s (String c EmptyString))
       = String.append u (String c EmptyString).
Proof.
  intros Hc. induction s as [|x s IH].
  - exists EmptyString. rewrite !string_app_nil_l. simpl. by rewrite Hc.
  - rewrite string_app_cons. simpl. destruct (isWhiteSpace x); [done|].
    exists (String x s). by rewrite string_app_cons.
Qed.

Lemma trimEnd_startsClean (s : string) :
  startsClean s = true → startsClean (trimEnd s) = true.
Proof.
  destruct s as [|c s]; [done|]. simpl. intros Hc.
  unfold trimEnd. rewrite rev_cons.
  destruct (trimStart_snoc (String.rev s) c) as [u ->].
  { by apply negb_true_iff. }
  rewrite rev_snoc. done.
Qed.

Lemma trimEnd_idem (s : string) : trimEnd (trimEnd s) = trimEnd s.
Proof.
  unfold trimEnd. rewrite rev_involutive.
  by rewrite (trimStart_clean _ (trimStart_startsClean _)).
Qed.

Lemma trim_idem (s : string) : trim (trim s) = trim s.
Proof.
  unfold trim.
  rewrite (trimStart_clean (trimEnd (trimStart s))).
  - apply trimEnd_idem.
  - apply trimEnd_startsClean, trimStart_startsClean.
Qed.

Lemma trim_trimmed (s : string) : truthy (trim s) = true → trimmed (trim s).
Proof. intros Ht. split; [done|apply trim_idem]. Qed.

Lemma wellFormed_submit (uid body : string) (now : Timestamp) :
  truthy uid = true → truthy (trim body) = true →
  wellFormedPost (mkPostData uid (trim body) now (Some []) (Some [])).
Proof.
  intros Hu Hb. split; [done|]. split; [by apply trim_trimmed|].
  split; eexists; (split; [done|]); split; constructor.
Qed.

Lemma wellFormed_like (uid : string) (postId : string) (d : PostData) :
  truthy uid = true → wellFormedPost d →
  wellFormedPost (applyUpdate (UpdLikes (newLikes uid (mkPost postId d))) d).
Proof.
  intros Hu (Ha & Hc & (likes & Hl & Hnd & Hall) & Hcs).
  split; [done|]. split; [done|]. split; [|done].
  eexists. split; [done|]. unfold newLikes. simpl. rewrite Hl. simpl.
  destruct (includes uid likes) eqn:Hin.
  - split; [by apply NoDup_filter|].
    rewrite Forall_forall in Hall |- *. intros x Hx.
    apply list_elem_of_filter in Hx as [_ Hx]. by apply Hall.
  - apply includes_false in Hin. split.
    + apply NoDup_app. split; [done|]. split; [|apply NoDup_singleton].
      intros x Hx Hx'. apply list_elem_of_singleton in Hx'. by subst.
    + apply Forall_app. split; [done|]. by apply Forall_singleton.
Qed.

Lemma act_AddComment_store (userId : option string) (postId : string)
    (now : Timestamp) (body : string) (st : Store) :
  act (AddComment userId postId now body) st = st.
Proof.
  unfold act. destruct (renderedPost st postId) as [post|]; [|done].
  apply handleAddComment_store_ui.
Qed.

Lemma act_wellFormed (a : Action) (st : Store) :
  map_Forall (λ _ d, wellFormedPost d) st →
  map_Forall (λ _ d, wellFormedPost d) (act a st).
Proof.
  intros Hst. destruct a as [userId newId now body|userId postId
                            |userId postId now body];
    [simpl..|by rewrite act_AddComment_store].
  - unfold handleSubmit. destruct userId as [uid|]; [|done]. simpl.
    destruct (truthy (trim body)) eqn:Hb; [|done].
    destruct (truthy uid) eqn:Hu; [|done]. simpl.
    apply map_Forall_insert_2; [|done].
    by apply wellFormed_submit.
  - unfold renderedPost.
    destruct (st !! postId) as [d|] eqn:Hd; [|done]. simpl.
    destruct userId as [uid|]; [|done].
    destruct (truthy uid) eqn:Hu; [|done].
    unfold updateDoc. simpl. rewrite Hd. simpl.
    apply map_Forall_insert_2; [|done].
    apply wellFormed_like; [done|]. by apply (Hst postId).
Qed.

(** X14.  Whatever users do, in whatever order, starting from an empty
    collection, every post the three handlers leave in the collection has a
    non-empty author and a body that is not empty and has no white space at
    either end; its like list is present, names no identity twice and no
    empty identity; its comment array is present, holds no comment twice,
    and every comment has a non-empty author and a text that is not empty
    and has no white space at either end. *)
Theorem session_keeps_posts_well_formed (actions : list Action)
    (postId : string) (d : PostData) :
  session actions ∅ !! postId = Some d → wellFormedPost d.
Proof.
  assert (H : ∀ st, map_Forall (λ _ d, wellFormedPost d) st →
                    map_Forall (λ _ d, wellFormedPost d) (session actions st)).
  { induction actions as [|a actions IH]; intros st Hst; [done|].
    apply IH. by apply act_wellFormed. }
  intros Hd. apply (H ∅ (map_Forall_empty _) postId d Hd).
Qed.

Lemma session_keeps_posts_well_formed_witness :
  wellFormedPost
    (mkPostData "alice" "Saw a heron" (mkTimestamp 1700000000 0)
       (Some ["bob"]) (Some [])).
Proof.
  apply (session_keeps_posts_well_formed
           [Submit (Some "alice") "p1" (mkTimestamp 1700000000 0)
              "  Saw a heron ";
            Like (Some "bob") "p1";
            Like None "p1";
            AddComment (Some "carol") "p1" (mkTimestamp 1700000060 0)
              " hi @bob ";
            AddComment (Some "carol") "p1" (mkTimestamp 1700000070 0) "  "]
           "p1").
  vm_compute. reflexivity.
Defined.

(** ** Relative times *)

(** X15.  The relative time agrees in number with its unit and stays in
    range: a date between one and two minutes old gives "1 minute ago", an
    older one under an hour gives "N minutes ago" with N from 2 to 59; a
    date between one and two hours old gives "1 hour ago", an older one
    under 24 hours gives "N hours ago" with N from 2 to 23. *)
Theorem formatTimestamp_relative (Date_parse : string → option Z)
    (toLocaleDateString : Z → string) (now date : Z)
    (timestamp : TimestampArg) :
  falsy timestamp = false → dateOf Date_parse timestamp = Some date →
  let result := formatTimestamp Date_parse toLocaleDateString now timestamp in
  (60000 ≤ now - date < 120000 → result = "1 minute ago")
  ∧ (120000 ≤ now - date < 3600000 →
     ∃ n, 2 ≤ n ≤ 59 ∧ result = String.append (pretty n) " minutes ago")
  ∧ (3600000 ≤ now - date < 7200000 → result = "1 hour ago")
  ∧ (7200000 ≤ now - date < 86400000 →
     ∃ n, 2 ≤ n ≤ 23 ∧ result = String.append (pretty n) " hours ago").
Proof.
  intros Hf Hd result. subst result. unfold formatTimestamp.
  rewrite Hf, Hd. change (1000 * 60) with 60000.
  pose proof (Z_div_mod_eq_full (now - date) 60000) as Hdiv.
  pose proof (Z.mod_pos_bound (now - date) 60000 eq_refl) as Hmod.
  set (m := (now - date) / 60000) in *.
  pose proof (Z_div_mod_eq_full m 60) as Hdiv'.
  pose proof (Z.mod_pos_bound m 60 eq_refl) as Hmod'.
  set (h := m / 60) in *.
  repeat split; intros Hage.
  - assert (m = 1) as -> by lia. reflexivity.
  - exists m. split; [lia|].
    destruct (Z.ltb_spec m 1); [lia|]. destruct (Z.ltb_spec m 60); [|lia].
    unfold ago. destruct (Z.eqb_spec m 1); [lia|]. reflexivity.
  - assert (h = 1) as Hh by lia.
    destruct (Z.ltb_spec m 1); [lia|]. destruct (Z.ltb_spec m 60); [lia|].
    destruct (Z.ltb_spec m 1440); [|lia]. rewrite Hh. reflexivity.
  - exists h. split; [lia|].
    destruct (Z.ltb_spec m 1); [lia|]. destruct (Z.ltb_spec m 60); [lia|].
    destruct (Z.ltb_spec m 1440); [|lia].
    unfold ago. destruct (Z.eqb_spec h 1); [lia|]. reflexivity.
Qed.

Lemma formatTimestamp_relative_witness :
  formatTimestamp (λ _, None) (λ _, "Nov 14, 2023") 1700000000000
    (ArgTimestamp (mkTimestamp 1699999910 0))
  = "1 minute ago".
Proof.
  destruct (formatTimestamp_relative (λ _, None) (λ _, "Nov 14, 2023")
              1700000000000 1699999910000
              (ArgTimestamp (mkTimestamp 1699999910 0)) eq_refl eq_refl)
    as (Hone & _).
  apply Hone. lia.
Defined.

(** ** Signing in *)

Lemma substring_is_prefix (n : nat) (s : string) :
  String.prefix (substring 0 n s) s = true.
Proof.
  revert s. induction n as [|n IH]; intros s.
  - by destruct s.
  - destruct s as [|c s]; [done|]. simpl.
    destruct (ascii_dec c c); [apply IH|done].
Qed.

(** X16.  Before the sign-in listener has run, [App] shows the loading
    screen.  Once it has run, rendering [App] fails with a [TypeError]
    exactly when nobody is signed in (no user, or a user with an empty id);
    for a signed-in user the page shows the user id, one item per post of
    the feed, and a mention example made of [@] and the first eight
    characters of the id, which is a prefix of the id. *)
Theorem App_after_sign_in (user : option string) (userCount : nat)
    (feed : list Post) :
  App initialAuthState userCount feed = Connecting
  ∧ (App (authStateChanged user) userCount feed = RenderError
     ↔ user = None ∨ user = Some "")
  ∧ (∀ uid, user = Some uid → uid ≠ "" →
       App (authStateChanged user) userCount feed
       = Page uid
           (String.append "@" (String.append (substring 0 8 uid) "..."))
           userCount (length feed) (post_id <$> feed)
       ∧ String.prefix (substring 0 8 uid) uid = true
       ∧ (String.length (substring 0 8 uid) ≤ 8)%nat).
Proof.
  split; [done|]. split.
  - unfold App, authStateChanged. simpl.
    destruct user as [[|c uid]|]; simpl; split; try done; auto.
    intros [?|?]; done.
  - intros uid -> Hne. unfold App, authStateChanged. simpl.
    destruct uid as [|c uid]; [done|]. simpl.
    split; [done|]. split.
    + destruct (ascii_dec c c); [|done]. apply (substring_is_prefix 7).
    + clear. do 8 (destruct uid as [|? uid]; [simpl; lia|]). simpl. lia.
Qed.

Lemma App_after_sign_in_witness :
  App (authStateChanged (Some "alice1234567")) 3 [mkPost "p1" heronPost]
  = Page "alice1234567" "@alice123..." 3 1 ["p1"].
Proof.
  destruct (App_after_sign_in (Some "alice1234567") 3 [mkPost "p1" heronPost])
    as (_ & _ & Hpage).
  destruct (Hpage "alice1234567" eq_refl) as (Hview & _); [done|].
  exact Hview.
Defined.

(** ** The empty result *)

Lemma textOf_empty (parts : list Span) :
  Forall (λ part, truthy (children part) = true) parts →
  textOf parts = EmptyString → parts = [].
Proof.
  destruct parts as [|p parts]; [done|]. intros Hall Htext.
  apply Forall_cons in Hall as [Hp _]. simpl in Htext.
  destruct (children p); [done|]. by rewrite string_app_cons in Htext.
Qed.

(** X17.  [formatTextContent] returns [null] exactly for a missing or empty
    text.  For any other text it returns a list, which is empty exactly
    when nothing of the text is left once the [@]s that no letter or digit
    follows are taken out, that is, when the text consists of such [@]s
    only. *)
Theorem formatTextContent_empty (text : option string)
    (allUsers : list string) :
  (formatTextContent text allUsers = None ↔ text = None ∨ text = Some "")
  ∧ (formatTextContent text allUsers = Some []
     ↔ ∃ t, text = Some t ∧ t ≠ "" ∧ dropStrayAts t = "").
Proof.
  unfold formatTextContent. destruct text as [t|].
  2:{ split; [split; auto|]. split; [done|]. by intros (t & ? & _). }
  destruct (truthy t) eqn:Ht.
  2:{ destruct t; [|done]. split; [split; auto|]. split; [done|].
      intros (t & [= <-] & Hne & _). done. }
  split.
  { split; [done|]. intros [?|[= ->]]; done. }
  pose proof (execLoop_textOf allUsers (String.length t) t 0 [] (le_n _))
    as Htext.
  rewrite string_app_nil_l in Htext.
  split.
  - intros [= Hparts]. exists t. split; [done|]. split; [by intros ->|].
    by rewrite <- Htext, Hparts.
  - intros (t' & [= <-] & _ & Hdrop). f_equal.
    apply textOf_empty; [|by rewrite Htext].
    apply Forall_forall. intros part Hin.
    apply execLoop_tokens in Hin as [Hin|(m & Hm & Hin)].
    { by apply elem_of_nil in Hin. }
    pose proof (token_length m Hm) as Hlen.
    destruct (pushFor_token allUsers m Hm) as (style & Hpush & _).
    rewrite Hpush in Hin. apply list_elem_of_singleton in Hin as ->. simpl.
    destruct (m_0 m); [simpl in Hlen; lia|done].
Qed.

Lemma formatTextContent_empty_witness :
  formatTextContent (Some "@@@") ["bob"] = Some [].
Proof.
  apply (formatTextContent_empty (Some "@@@") ["bob"]).
  exists "@@@". split; [reflexivity|]. split; [done|reflexivity].
Defined.

(** ** Likes and comments together *)

